(** * libswiftnav tracking helpers: C/N0 estimator (SNV method) and
      first-order low-pass filter

    A shallow embedding of [cn0_est_snv_init], [cn0_est_snv_update],
    [lp1_filter_init] and [lp1_filter_update].

    The C code computes on [float] (IEEE 754 binary32) and, where the
    [double] constant [M_PI] enters an expression, on [double] (binary64).
    Both formats are modelled by [spec_float] of the Standard Library with
    its operations at precision 24 / 53: every [+], [-], [*], [/], [sqrtf],
    [fabsf] and [<] below rounds to nearest, ties to even, once per C
    operator (no fused multiply-add, no excess precision).  Not-a-number,
    infinities and signed zeros are values of the model.

    The libm functions [log10f], [tanf] and [powf] are not part of the
    repository; the code that calls them takes them as parameters. *)

From Stdlib Require Import ZArith Bool List Lia Permutation.
From Stdlib Require Import Floats.SpecFloat.
Import ListNotations.

Local Open Scope Z_scope.

(** ** C [float]: IEEE 754 binary32 *)

Module F32.
Definition t : Type := spec_float.

Definition prec : Z := 24.
Definition emax : Z := 128.

Definition add : t -> t -> t := SFadd prec emax.
Definition sub : t -> t -> t := SFsub prec emax.
Definition mul : t -> t -> t := SFmul prec emax.
Definition div : t -> t -> t := SFdiv prec emax.
Definition sqrtf : t -> t := SFsqrt prec emax.
Definition neg : t -> t := SFopp.
Definition fabsf : t -> t := SFabs.
Definition ltb : t -> t -> bool := SFltb.
Definition leb : t -> t -> bool := SFleb.
Definition eqb : t -> t -> bool := SFeqb.

(** An integer constant such as [10.f]. *)
Definition of_Z (z : Z) : t := binary_normalize prec emax z 0 false.

(** A value that a [float] object can hold. *)
Definition valid (x : t) : bool := valid_binary prec emax x.

Definition nan : t := S754_nan.
Definition zero : t := S754_zero false.

Definition is_nan (x : t) : bool :=
  match x with S754_nan => true | _ => false end.

Definition is_zero (x : t) : bool :=
  match x with S754_zero _ => true | _ => false end.

(** The sign bit as [signbit] reads it; a NaN carries none here. *)
Definition signbit (x : t) : bool :=
  match x with
  | S754_zero s | S754_infinity s | S754_finite s _ _ => s
  | S754_nan => false
  end.
End F32.

(** ** C [double]: IEEE 754 binary64, and the two conversions *)

Module F64.
Definition t : Type := spec_float.

Definition prec : Z := 53.
Definition emax : Z := 1024.

Definition mul : t -> t -> t := SFmul prec emax.
Definition div : t -> t -> t := SFdiv prec emax.

(** [float] to [double]: exact, the mantissa is re-aligned. *)
Definition of_f32 (x : F32.t) : t :=
  match x with
  | S754_finite s m e => binary_round prec emax s m e
  | _ => x
  end.

(** [double] to [float]: one rounding to nearest even. *)
Definition to_f32 (x : t) : F32.t :=
  match x with
  | S754_finite s m e => binary_round F32.prec F32.emax s m e
  | _ => x
  end.

(** [M_PI] of [math.h], 3.14159265358979323846, as a [double]:
    0x1.921fb54442d18p+1. *)
Definition M_PI : t := S754_finite false 7074237752028440 (-51).
End F64.

Declare Scope f32_scope.
Delimit Scope f32_scope with f32.
Bind Scope f32_scope with F32.t.
Infix "+" := F32.add : f32_scope.
Infix "-" := F32.sub : f32_scope.
Infix "*" := F32.mul : f32_scope.
Infix "/" := F32.div : f32_scope.
Infix "<?" := F32.ltb : f32_scope.
Notation "- x" := (F32.neg x) : f32_scope.

Declare Scope f64_scope.
Delimit Scope f64_scope with f64.
Bind Scope f64_scope with F64.t.
Infix "*" := F64.mul : f64_scope.
Infix "/" := F64.div : f64_scope.

(** ** The literals of the two source files *)

Module Lit.
(** [0.f] *)
Definition f0 : F32.t := F32.zero.
(** [1.f] *)
Definition f1 : F32.t := Eval vm_compute in F32.of_Z 1.
(** [2.f] *)
Definition f2 : F32.t := Eval vm_compute in F32.of_Z 2.
(** [3.f] *)
Definition f3 : F32.t := Eval vm_compute in F32.of_Z 3.
(** [10.f] *)
Definition f10 : F32.t := Eval vm_compute in F32.of_Z 10.
(** [20.f] *)
Definition f20 : F32.t := Eval vm_compute in F32.of_Z 20.
(** [0.5f], exactly 2^-1. *)
Definition f0_5 : F32.t := S754_finite false 8388608 (-24).
End Lit.

(** ** C/N0 estimator, signal-to-noise-variance method *)

(** Multiplier for checking out-of bounds NSR: [1e-6f].  Both 1 and 10^6
    are binary32 values, so the correctly rounded quotient is the value of
    the literal. *)
Definition CN0_SNV_NSR_MIN_MULTIPLIER : F32.t :=
  Eval vm_compute in F32.div (F32.of_Z 1) (F32.of_Z 1000000).

(** Maximum supported NSR value: [1e6f]. *)
Definition CN0_SNV_NSR_MIN : F32.t :=
  Eval vm_compute in F32.of_Z 1000000.

(** The fields of [cn0_est_state_t] that the estimator reads and writes. *)
Record cn0_est_state_t : Type := mk_cn0_est_state {
  log_bw : F32.t;
  I_prev_abs : F32.t;
  Q_prev_abs : F32.t;
  cn0 : F32.t
}.

(** The body of the [else] branch of [cn0_est_snv_update], one definition
    per local variable, each a function of the four magnitudes. *)
Section SnvPowers.
Variables I_abs Q_abs I_prev_abs Q_prev_abs : F32.t.

(** [P_s = 0.5f * (I_abs + I_prev_abs); P_s *= P_s;] *)
Definition P_s : F32.t :=
  let P_s := (Lit.f0_5 * (I_abs + I_prev_abs))%f32 in
  (P_s * P_s)%f32.

(** [P_tot = 0.5f * (Q_prev_abs * Q_prev_abs + I_prev_abs * I_prev_abs +
                     Q_abs * Q_abs + I_abs * I_abs);] *)
Definition P_tot : F32.t :=
  (Lit.f0_5 * (Q_prev_abs * Q_prev_abs + I_prev_abs * I_prev_abs +
               Q_abs * Q_abs + I_abs * I_abs))%f32.

(** [P_n = P_tot - P_s;] *)
Definition P_n : F32.t := (P_tot - P_s)%f32.

(** [if (P_s < P_n * CN0_SNV_NSR_MIN_MULTIPLIER) nsr = CN0_SNV_NSR_MIN;
    else nsr = P_tot / P_s;] *)
Definition nsr : F32.t :=
  if (P_s <? P_n * CN0_SNV_NSR_MIN_MULTIPLIER)%f32
  then CN0_SNV_NSR_MIN
  else (P_tot / P_s)%f32.
End SnvPowers.

Section Estimator.
Variable log10f : F32.t -> F32.t.

Definition cn0_est_snv_init (bw cn0_0 f_s f_i : F32.t) : cn0_est_state_t :=
  {| log_bw := (Lit.f10 * log10f (bw * f_i / f_s))%f32;
     I_prev_abs := (- Lit.f1)%f32;
     Q_prev_abs := (- Lit.f1)%f32;
     cn0 := cn0_0 |}.

(** The state after the call and the returned value.  The locals
    [I_prev_abs] and [Q_prev_abs] of the source, which share their names
    with the fields, carry a [0] here. *)
Definition cn0_est_snv_update (s : cn0_est_state_t) (I Q : F32.t)
  : cn0_est_state_t * F32.t :=
  let I_abs := F32.fabsf I in
  let Q_abs := F32.fabsf Q in
  let I_prev_abs0 := s.(I_prev_abs) in
  let Q_prev_abs0 := s.(Q_prev_abs) in
  let s := {| log_bw := s.(log_bw);
              I_prev_abs := I_abs;
              Q_prev_abs := Q_abs;
              cn0 := s.(cn0) |} in
  if (I_prev_abs0 <? Lit.f0)%f32 then
    (* This is the first iteration, just update the prev state. *)
    (s, s.(cn0))
  else
    let nsr := nsr I_abs Q_abs I_prev_abs0 Q_prev_abs0 in
    let nsr_db := (Lit.f10 * log10f nsr)%f32 in
    (* Compute and store updated CN0 *)
    let s := {| log_bw := s.(log_bw);
                I_prev_abs := s.(I_prev_abs);
                Q_prev_abs := s.(Q_prev_abs);
                cn0 := (s.(log_bw) - nsr_db)%f32 |} in
    (s, s.(cn0)).

(** A run of updates from a state: the final state and the returned
    values, oldest first. *)
Fixpoint cn0_run (s : cn0_est_state_t) (iq : list (F32.t * F32.t))
  : cn0_est_state_t * list F32.t :=
  match iq with
  | [] => (s, [])
  | (i, q) :: rest =>
      let (s1, r) := cn0_est_snv_update s i q in
      let (s2, rs) := cn0_run s1 rest in
      (s2, r :: rs)
  end.
End Estimator.

(** Whether a call of [cn0_est_snv_update] on [s] takes the first-iteration
    branch: the test [I_prev_abs < 0.f] of the source. *)
Definition first_iteration (s : cn0_est_state_t) : bool :=
  (s.(I_prev_abs) <? Lit.f0)%f32.

(** ** Low-pass filter *)

(** The fields of [lp1_filter_t] that the filter reads and writes. *)
Record lp1_filter_t : Type := mk_lp1_filter {
  a : F32.t;
  b : F32.t;
  xn : F32.t;
  yn : F32.t
}.

(** [Ap = powf(10.f, -3.f/20.f)] takes its value from libm; the rest of
    the coefficient derivation, from [Op], [Ap] and [Ts] on. *)
Section Coefficients.
Variables Op Ap Ts : F32.t.

(** The argument of [sqrtf]: [1.f/(Ap*Ap-1.f)]. *)
Definition sqrtf_arg : F32.t := (Lit.f1 / (Ap * Ap - Lit.f1))%f32.

(** [Oc = Op/sqrtf((1.f/(Ap*Ap-1.f)))] *)
Definition Oc : F32.t := (Op / F32.sqrtf sqrtf_arg)%f32.

(** [tmp = Oc*Ts] *)
Definition tmp : F32.t := (Oc * Ts)%f32.

(** The common denominator [2.f-tmp]. *)
Definition denom : F32.t := (Lit.f2 - tmp)%f32.

(** [f->b = -tmp / (2.f-tmp)] *)
Definition coeff_b : F32.t := ((- tmp) / denom)%f32.

(** [f->a = (-2.f-tmp) / (2.f-tmp)]; the source line has no terminating
    semicolon and is read as the assignment it spells. *)
Definition coeff_a : F32.t := (((- Lit.f2) - tmp) / denom)%f32.
End Coefficients.

Section Filter.
Variables (tanf : F32.t -> F32.t) (powf : F32.t -> F32.t -> F32.t).

(** [Ts = 1.f/loop_freq] *)
Definition lp1_Ts (loop_freq : F32.t) : F32.t := (Lit.f1 / loop_freq)%f32.

(** [wp = 10.f*cutoff_freq*2.f*M_PI*Ts]: the two leftmost products are
    [float] products, the two with [M_PI] are [double] products, and the
    initialisation rounds to [float]. *)
Definition lp1_wp (cutoff_freq loop_freq : F32.t) : F32.t :=
  F64.to_f32
    (F64.of_f32 (Lit.f10 * cutoff_freq * Lit.f2)%f32
     * F64.M_PI * F64.of_f32 (lp1_Ts loop_freq))%f64.

(** [Op = 1.f/(M_PI*Ts)*tanf(wp/2.f)], in [double] throughout. *)
Definition lp1_Op (cutoff_freq loop_freq : F32.t) : F32.t :=
  F64.to_f32
    (F64.of_f32 Lit.f1 / (F64.M_PI * F64.of_f32 (lp1_Ts loop_freq))
     * F64.of_f32 (tanf (lp1_wp cutoff_freq loop_freq / Lit.f2)%f32))%f64.

(** [Ap = powf(10.f,-3.f/20.f)] *)
Definition lp1_Ap : F32.t := powf Lit.f10 ((- Lit.f3) / Lit.f20)%f32.

Definition lp1_filter_init (initial cutoff_freq loop_freq : F32.t)
  : lp1_filter_t :=
  let Ts := lp1_Ts loop_freq in
  let Op := lp1_Op cutoff_freq loop_freq in
  let Ap := lp1_Ap in
  let f_b := coeff_b Op Ap Ts in
  let f_a := coeff_a Op Ap Ts in
  (* Set up initial filter state so that stable input produces stable
     output *)
  {| a := f_a; b := f_b; xn := (initial * f_b)%f32; yn := initial |}.
End Filter.

(** The state after the call and the returned value. *)
Definition lp1_filter_update (f : lp1_filter_t) (value : F32.t)
  : lp1_filter_t * F32.t :=
  let tmp := (f.(b) * value)%f32 in
  let yn' := (tmp + f.(xn) - f.(a) * f.(yn))%f32 in
  ({| a := f.(a); b := f.(b); xn := tmp; yn := yn' |}, yn').

(** A run of filter updates: the final state and the outputs, oldest
    first. *)
Fixpoint lp1_run (f : lp1_filter_t) (values : list F32.t)
  : lp1_filter_t * list F32.t :=
  match values with
  | [] => (f, [])
  | v :: rest =>
      let (f1, y) := lp1_filter_update f v in
      let (f2, ys) := lp1_run f1 rest in
      (f2, y :: ys)
  end.

(** The states on entry to each call of a run of estimator updates. *)
Fixpoint cn0_entry_states (log10f : F32.t -> F32.t) (s : cn0_est_state_t)
  (iq : list (F32.t * F32.t)) : list cn0_est_state_t :=
  match iq with
  | [] => []
  | (i, q) :: rest =>
      s :: cn0_entry_states log10f (fst (cn0_est_snv_update log10f s i q)) rest
  end.

(** ** The reference definition of the specification

    Section 4.1 of the specification, read in single precision.  The
    specification gives the total power as a sum of four squares and fixes
    no order of summation; [P_tot] takes them left to right as printed,
    [P_tot_QI] with the two new squares taken Q first.  The state is the
    estimator's record, with [prevAbsI] and [prevAbsQ] for [I_prev_abs] and
    [Q_prev_abs]. *)

Module Spec.
Section Powers.
Variables absI absQ prevAbsI prevAbsQ : F32.t.

(** Signal power estimate: P_s = (0.5·(absI + prevAbsI))². *)
Definition P_s : F32.t :=
  let h := (Lit.f0_5 * (absI + prevAbsI))%f32 in (h * h)%f32.

(** Total power estimate:
    P_tot = 0.5·(prevAbsI² + prevAbsQ² + absI² + absQ²). *)
Definition P_tot : F32.t :=
  (Lit.f0_5 * (prevAbsI * prevAbsI + prevAbsQ * prevAbsQ +
               absI * absI + absQ * absQ))%f32.

(** The four squares of that sum, in the order printed, and with the two
    new squares exchanged. *)
Definition squares : list F32.t :=
  [ (prevAbsI * prevAbsI)%f32; (prevAbsQ * prevAbsQ)%f32;
    (absI * absI)%f32; (absQ * absQ)%f32 ].

Definition squares_QI : list F32.t :=
  [ (prevAbsI * prevAbsI)%f32; (prevAbsQ * prevAbsQ)%f32;
    (absQ * absQ)%f32; (absI * absI)%f32 ].

(** The same sum with the two new squares exchanged:
    0.5·(prevAbsI² + prevAbsQ² + absQ² + absI²). *)
Definition P_tot_QI : F32.t :=
  (Lit.f0_5 * (prevAbsI * prevAbsI + prevAbsQ * prevAbsQ +
               absQ * absQ + absI * absI))%f32.

(** Noise-to-signal ratio for a given total power: with
    P_n = P_tot − P_s, clamp to 1e6 if P_s < P_n · 1e-6, else
    P_tot / P_s. *)
Definition nsr_of (P_tot : F32.t) : F32.t :=
  let P_n := (P_tot - P_s)%f32 in
  if (P_s <? P_n * CN0_SNV_NSR_MIN_MULTIPLIER)%f32
  then CN0_SNV_NSR_MIN
  else (P_tot / P_s)%f32.

Definition nsr_QI : F32.t := nsr_of P_tot_QI.
End Powers.

(** update(state, I, Q): bootstrap on the sentinel, otherwise
    cn0 = log_bw − 10·log10(nsr); the new magnitudes are stored either
    way.  [ratio] is the noise-to-signal ratio in use. *)
Definition cn0Update_with (ratio : F32.t -> F32.t -> F32.t -> F32.t -> F32.t)
  (log10 : F32.t -> F32.t) (s : cn0_est_state_t) (I Q : F32.t)
  : cn0_est_state_t * F32.t :=
  let absI := F32.fabsf I in
  let absQ := F32.fabsf Q in
  if (I_prev_abs s <? Lit.f0)%f32 then
    ({| log_bw := log_bw s; I_prev_abs := absI; Q_prev_abs := absQ;
        cn0 := cn0 s |}, cn0 s)
  else
    let nsr_dB :=
      (Lit.f10 * log10 (ratio absI absQ (I_prev_abs s) (Q_prev_abs s)))%f32 in
    let c := (log_bw s - nsr_dB)%f32 in
    ({| log_bw := log_bw s; I_prev_abs := absI; Q_prev_abs := absQ;
        cn0 := c |}, c).

Definition cn0Update_QI := cn0Update_with nsr_QI.
End Spec.

(** ** Sample values *)

(** [float] values used in statements and examples. *)
Module Val.
(** 6, 60, 1000, 4096 and 1.5 *)
Definition f6 : F32.t := Eval vm_compute in F32.of_Z 6.
Definition f60 : F32.t := Eval vm_compute in F32.of_Z 60.
Definition f1000 : F32.t := Eval vm_compute in F32.of_Z 1000.
Definition f4096 : F32.t := Eval vm_compute in F32.of_Z 4096.
Definition f1_5 : F32.t := Eval vm_compute in F32.div (F32.of_Z 3) (F32.of_Z 2).
(** -3 and -30 *)
Definition fm3 : F32.t := Eval vm_compute in F32.of_Z (-3).
Definition fm30 : F32.t := Eval vm_compute in F32.of_Z (-30).
(** The [float] quotient 1/1000, the value of [bw * f_i / f_s] for
    [bw = 1], [f_i = 1], [f_s = 1000]; it is 0.001 + 4.7e-11. *)
Definition f0_001 : F32.t :=
  Eval vm_compute in (Lit.f1 * Lit.f1 / f1000)%f32.
(** The [float] nearest to 10^(-3.f/20.f) = 0.70794577...:
    11877359 * 2^-24. *)
Definition Ap_nearest : positive := 11877359.
End Val.

(** A stand-in for libm's [log10f] in examples: the decimal logarithm at
    1 and 10^6, where it is a [float], at 2, where it rounds to
    10100891 * 2^-25 = 0.30103, and at the [float] next to 0.001, where it
    is within a tenth of an ulp of -3. *)
Definition log10f_table (x : F32.t) : F32.t :=
  if F32.eqb x Lit.f1 then Lit.f0
  else if F32.eqb x CN0_SNV_NSR_MIN then Val.f6
  else if F32.eqb x Lit.f2 then S754_finite false 10100891 (-25)
  else if F32.eqb x Val.f0_001 then Val.fm3
  else F32.nan.

(** What the proofs ask of libm's [powf]: [powf(10.f, -3.f/20.f)] is
    within 8 ulp of the correctly rounded value. *)
Definition powf_near (powf : F32.t -> F32.t -> F32.t) : Prop :=
  exists m : positive,
    lp1_Ap powf = S754_finite false m (-24)
    /\ (Val.Ap_nearest - 8 <= m <= Val.Ap_nearest + 8)%positive.

(** A [powf] that returns the correctly rounded value there. *)
Definition powf_table (x y : F32.t) : F32.t :=
  S754_finite false Val.Ap_nearest (-24).

(** A [tanf] for examples; the proofs do not depend on its values. *)
Definition tanf_table (x : F32.t) : F32.t := x.

(** A check of [f] on the [n] positive numbers from [start] on. *)
Fixpoint all_from (f : positive -> bool) (start : positive) (n : nat) : bool :=
  match n with
  | O => true
  | S n' => f start && all_from f (Pos.succ start) n'
  end.

(** For a candidate value [m * 2^-24] of [Ap]: the argument of [sqrtf] is
    below zero and [sqrtf] of it is not a number. *)
Definition sqrtf_arg_fails (m : positive) : bool :=
  let arg := sqrtf_arg (S754_finite false m (-24)) in
  (arg <? Lit.f0)%f32 && F32.is_nan (F32.sqrtf arg).

(** ** Rounding, as arithmetic on the mantissa *)

(** The record after [k] right shifts of [M]. *)
Definition shr_after (M : Z) (k : nat) : shr_record :=
  match k with
  | O => {| shr_m := M; shr_r := false; shr_s := false |}
  | S j =>
      {| shr_m := M / 2 ^ Z.of_nat k;
         shr_r := Z.odd (M / 2 ^ Z.of_nat j);
         shr_s := negb (M mod 2 ^ Z.of_nat j =? 0) |}
  end.

(** Round to nearest, ties to even, of [M / 2^n]. *)
Definition rne (M n : Z) : Z :=
  let q := M / 2 ^ n in
  let R := M mod 2 ^ n in
  if R =? 0 then q
  else match 2 * R ?= 2 ^ n with
       | Lt => q
       | Eq => if Z.even q then q else q + 1
       | Gt => q + 1
       end.

(** The middle of the range of [float]: a normal number [c] with
    2^-51 <= |c| < 2^62.  Its square is a normal number and four times the
    square is finite. *)
Definition mid_range (c : F32.t) : bool :=
  match c with
  | S754_finite _ m e => (Zpos (digits2_pos m) =? 24) && (-74 <=? e) && (e <=? 38)
  | _ => false
  end.

(** ** Decay of a list of outputs *)

(** Each output of the list is, in magnitude, the [float] product of [|a|]
    and the magnitude of the output before it; it is the negated product
    [-(a * y1)] itself unless that product is a zero (then both are zeros,
    of either sign). *)
Definition decay_step (a y1 y2 : F32.t) : Prop :=
  F32.fabsf y2 = (F32.fabsf a * F32.fabsf y1)%f32
  /\ (y2 = (- (a * y1))%f32
      \/ (F32.is_zero y2 = true /\ F32.is_zero (a * y1)%f32 = true)).

(** The filter after [k] updates with value 0. *)
Definition zero_updates (k : nat) (f : lp1_filter_t) : lp1_filter_t :=
  Nat.iter k (fun g => fst (lp1_filter_update g Lit.f0)) f.

Fixpoint decays (a : F32.t) (ys : list F32.t) : Prop :=
  match ys with
  | y1 :: ((y2 :: _) as rest) => decay_step a y1 y2 /\ decays a rest
  | _ => True
  end.

(** ** Runs of inputs and the values they produce *)

(** The magnitudes of a list of (I, Q) inputs. *)
Definition magnitudes (iq : list (F32.t * F32.t)) : list (F32.t * F32.t) :=
  map (fun p => (F32.fabsf (fst p), F32.fabsf (snd p))) iq.

(** The value [cn0_est_snv_update] computes from the stored [log_bw] and
    two consecutive inputs, the older one first. *)
Definition window_value (log10f : F32.t -> F32.t) (lbw : F32.t)
  (prev cur : F32.t * F32.t) : F32.t :=
  (lbw - Lit.f10 * log10f (nsr (F32.fabsf (fst cur)) (F32.fabsf (snd cur))
                               (F32.fabsf (fst prev)) (F32.fabsf (snd prev))))%f32.

(** That value for every two neighbours of a list of inputs. *)
Fixpoint window_values (log10f : F32.t -> F32.t) (lbw : F32.t)
  (iq : list (F32.t * F32.t)) : list F32.t :=
  match iq with
  | prev :: ((cur :: _) as rest) =>
      window_value log10f lbw prev cur :: window_values log10f lbw rest
  | _ => []
  end.

(** An (I, Q) input with both components a zero, of either sign. *)
Definition zero_pair (p : F32.t * F32.t) : bool :=
  F32.is_zero (fst p) && F32.is_zero (snd p).

(** A zero or a finite number: neither an infinity nor a NaN. *)
Definition is_finite (x : F32.t) : bool :=
  match x with
  | S754_zero _ | S754_finite _ _ _ => true
  | _ => false
  end.

(** A filter at rest: both delay-line fields are zeros. *)
Definition at_rest (f : lp1_filter_t) : bool :=
  F32.is_zero (xn f) && F32.is_zero (yn f).

(** A NaN in one of the four fields of the filter or in the input. *)
Definition has_nan (f : lp1_filter_t) (value : F32.t) : bool :=
  F32.is_nan (a f) || F32.is_nan (b f) || F32.is_nan (xn f)
  || F32.is_nan (yn f) || F32.is_nan value.

(** * Properties *)

(** ** Facts about binary32 that the proofs share *)

Lemma fabsf_not_negative (x : F32.t) : (F32.fabsf x <? Lit.f0)%f32 = false.
Proof. destruct x as [s | s | | s m e]; reflexivity. Qed.

Lemma fabsf_signbit (x : F32.t) : F32.signbit (F32.fabsf x) = false.
Proof. destruct x as [s | s | | s m e]; reflexivity. Qed.

Lemma fabsf_nonneg_iff (x : F32.t) :
  F32.leb Lit.f0 (F32.fabsf x) = negb (F32.is_nan x).
Proof. destruct x as [s | s | | s m e]; reflexivity. Qed.

Lemma fabsf_idem (x : F32.t) : F32.fabsf (F32.fabsf x) = F32.fabsf x.
Proof. destruct x as [s | s | | s m e]; reflexivity. Qed.

(** ** Rounding of exact results in the normal range *)

Lemma digits2_pos_bounds (p : positive) :
  2 ^ (Zpos (digits2_pos p) - 1) <= Zpos p < 2 ^ Zpos (digits2_pos p).
Proof.
  induction p as [p IH | p IH |]; cbn [digits2_pos].
  - rewrite Pos2Z.inj_succ.
    replace (Z.succ (Zpos (digits2_pos p)) - 1) with (Z.succ (Zpos (digits2_pos p) - 1)) by lia.
    rewrite !Z.pow_succ_r by lia. lia.
  - rewrite Pos2Z.inj_succ.
    replace (Z.succ (Zpos (digits2_pos p)) - 1) with (Z.succ (Zpos (digits2_pos p) - 1)) by lia.
    rewrite !Z.pow_succ_r by lia. lia.
  - cbn. lia.
Qed.

Lemma digits2_pos_unique (p : positive) (d : Z) :
  2 ^ (d - 1) <= Zpos p < 2 ^ d -> 0 < d -> Zpos (digits2_pos p) = d.
Proof.
  intros [Hlo Hhi] Hd.
  pose proof (digits2_pos_bounds p) as [Blo Bhi].
  set (d' := Zpos (digits2_pos p)) in *.
  assert (d' - 1 < d).
  { apply (Z.pow_lt_mono_r_iff 2); lia. }
  assert (d - 1 < d').
  { apply (Z.pow_lt_mono_r_iff 2); lia. }
  lia.
Qed.

Lemma nat_iter_shift {A : Type} (f : A -> A) (n : nat) (x : A) :
  Nat.iter n f (f x) = f (Nat.iter n f x).
Proof.
  induction n as [| n IH]; [reflexivity |].
  change (f (Nat.iter n f (f x)) = f (f (Nat.iter n f x))).
  rewrite IH. reflexivity.
Qed.

Lemma nat_iter_plus {A : Type} (f : A -> A) (n k : nat) (x : A) :
  Nat.iter (n + k) f x = Nat.iter n f (Nat.iter k f x).
Proof.
  induction n as [| n IH]; [reflexivity |].
  change (f (Nat.iter (n + k) f x) = f (Nat.iter n f (Nat.iter k f x))).
  rewrite IH. reflexivity.
Qed.

Lemma iter_pos_nat {A : Type} (f : A -> A) (p : positive) (x : A) :
  iter_pos f p x = Nat.iter (Pos.to_nat p) f x.
Proof.
  revert x. induction p as [p IH | p IH |]; intros x; cbn [iter_pos].
  - rewrite !IH, Pos2Nat.inj_xI.
    replace (S (2 * Pos.to_nat p)) with (Pos.to_nat p + S (Pos.to_nat p))%nat by lia.
    rewrite nat_iter_plus.
    change (Nat.iter (S (Pos.to_nat p)) f x) with (f (Nat.iter (Pos.to_nat p) f x)).
    rewrite nat_iter_shift. reflexivity.
  - rewrite !IH, Pos2Nat.inj_xO.
    replace (2 * Pos.to_nat p)%nat with (Pos.to_nat p + Pos.to_nat p)%nat by lia.
    rewrite nat_iter_plus. reflexivity.
  - reflexivity.
Qed.

(** One right shift of a non-negative mantissa. *)
Lemma shr_1_nonneg (m : Z) (r s : bool) :
  0 <= m ->
  shr_1 {| shr_m := m; shr_r := r; shr_s := s |}
  = {| shr_m := m / 2; shr_r := Z.odd m; shr_s := r || s |}.
Proof.
  intros Hm. destruct m as [| [p | p |] | p]; try lia; cbn [shr_1 Z.odd].
  - reflexivity.
  - replace (Z.pos p~1 / 2) with (Z.pos p); [reflexivity |].
    apply (Z.div_unique _ 2 _ 1); lia.
  - replace (Z.pos p~0 / 2) with (Z.pos p); [reflexivity |].
    apply (Z.div_unique _ 2 _ 0); lia.
  - reflexivity.
Qed.

Lemma shr_iter (M : Z) (k : nat) :
  0 <= M ->
  Nat.iter k shr_1 {| shr_m := M; shr_r := false; shr_s := false |}
  = shr_after M k.
Proof.
  intros HM. induction k as [| k IH]; [reflexivity |].
  change (Nat.iter (S k) shr_1 ?x) with (shr_1 (Nat.iter k shr_1 x)).
  rewrite IH. clear IH.
  destruct k as [| j].
  - cbn [shr_after]. rewrite shr_1_nonneg by exact HM.
    change (2 ^ Z.of_nat 1) with 2. change (2 ^ Z.of_nat 0) with 1.
    rewrite Z.div_1_r, Z.mod_1_r. reflexivity.
  - cbn [shr_after].
    assert (Hp : 0 < 2 ^ Z.of_nat j) by (apply Z.pow_pos_nonneg; lia).
    assert (E1 : 2 ^ Z.of_nat (S j) = 2 ^ Z.of_nat j * 2).
    { rewrite Nat2Z.inj_succ, Z.pow_succ_r by lia. lia. }
    assert (E2 : 2 ^ Z.of_nat (S (S j)) = 2 ^ Z.of_nat (S j) * 2).
    { rewrite (Nat2Z.inj_succ (S j)), Z.pow_succ_r by lia. lia. }
    rewrite shr_1_nonneg by (apply Z.div_pos; lia).
    f_equal.
    + rewrite E2. rewrite Z.div_div by lia. reflexivity.
    + rewrite E1. rewrite Z.rem_mul_r by lia.
      destruct (Z.odd (M / 2 ^ Z.of_nat j)) eqn:Ho.
      * cbn [orb]. rewrite <- Z.negb_even in Ho.
        assert ((M / 2 ^ Z.of_nat j) mod 2 = 1).
        { pose proof (Z.mod_pos_bound (M / 2 ^ Z.of_nat j) 2 ltac:(lia)).
          destruct (Z.even (M / 2 ^ Z.of_nat j)) eqn:He; [discriminate |].
          rewrite Zeven_mod in He. apply Z.eqb_neq in He. lia. }
        rewrite H.
        pose proof (Z.mod_pos_bound M (2 ^ Z.of_nat j) Hp).
        symmetry. apply negb_true_iff, Z.eqb_neq. lia.
      * cbn [orb]. rewrite <- Z.negb_even in Ho.
        assert ((M / 2 ^ Z.of_nat j) mod 2 = 0).
        { destruct (Z.even (M / 2 ^ Z.of_nat j)) eqn:He; [| discriminate].
          rewrite Zeven_mod in He. apply Z.eqb_eq in He. exact He. }
        rewrite H. rewrite Z.mul_0_r, Z.add_0_r. reflexivity.
Qed.

Lemma rne_of_shr (M : Z) (k : nat) :
  0 <= M ->
  round_nearest_even (shr_m (shr_after M k)) (loc_of_shr_record (shr_after M k))
  = rne M (Z.of_nat k).
Proof.
  intros HM. destruct k as [| j].
  - cbn [shr_after shr_m loc_of_shr_record round_nearest_even].
    unfold rne. change (2 ^ Z.of_nat 0) with 1.
    rewrite Z.mod_1_r, Z.div_1_r. reflexivity.
  - cbn [shr_after shr_m loc_of_shr_record].
    assert (Hp : 0 < 2 ^ Z.of_nat j) by (apply Z.pow_pos_nonneg; lia).
    assert (E1 : 2 ^ Z.of_nat (S j) = 2 ^ Z.of_nat j * 2).
    { rewrite Nat2Z.inj_succ, Z.pow_succ_r by lia. lia. }
    unfold rne. rewrite E1. set (P := 2 ^ Z.of_nat j) in *.
    rewrite Z.rem_mul_r by lia.
    pose proof (Z.mod_pos_bound M P Hp) as Hb.
    assert (Hc : (M / P) mod 2 = if Z.odd (M / P) then 1 else 0).
    { rewrite <- Z.negb_even, Zeven_mod.
      pose proof (Z.mod_pos_bound (M / P) 2 ltac:(lia)).
      destruct ((M / P) mod 2 =? 0) eqn:E; cbn [negb];
        [apply Z.eqb_eq in E | apply Z.eqb_neq in E]; lia. }
    rewrite Hc.
    destruct (Z.odd (M / P)) eqn:Ho, (M mod P =? 0) eqn:Ez; cbn [negb];
      [apply Z.eqb_eq in Ez | apply Z.eqb_neq in Ez
       | apply Z.eqb_eq in Ez | apply Z.eqb_neq in Ez];
      cbn [round_nearest_even].
    + rewrite Ez.
      replace (0 + P * 1 =? 0) with false by (symmetry; apply Z.eqb_neq; lia).
      replace (2 * (0 + P * 1) ?= P * 2) with Eq
        by (symmetry; apply Z.compare_eq_iff; lia).
      reflexivity.
    + replace (M mod P + P * 1 =? 0) with false by (symmetry; apply Z.eqb_neq; lia).
      replace (2 * (M mod P + P * 1) ?= P * 2) with Gt
        by (symmetry; apply Z.compare_gt_iff; lia).
      reflexivity.
    + rewrite Ez. rewrite Z.mul_0_r. cbn. reflexivity.
    + replace (M mod P + P * 0 =? 0) with false by (symmetry; apply Z.eqb_neq; lia).
      replace (2 * (M mod P + P * 0) ?= P * 2) with Lt
        by (symmetry; apply Z.compare_lt_iff; lia).
      reflexivity.
Qed.

Lemma rne_bounds (M n : Z) :
  0 <= n -> 2 ^ (23 + n) <= M < 2 ^ (24 + n) ->
  2 ^ 23 <= rne M n <= 2 ^ 24.
Proof.
  intros Hn [Hlo Hhi].
  assert (Hp : 0 < 2 ^ n) by (apply Z.pow_pos_nonneg; lia).
  rewrite Z.pow_add_r in Hlo, Hhi by lia.
  assert (Hq : 2 ^ 23 <= M / 2 ^ n < 2 ^ 24).
  { split.
    - apply Z.div_le_lower_bound; lia.
    - apply Z.div_lt_upper_bound; lia. }
  unfold rne.
  destruct (M mod 2 ^ n =? 0); [lia |].
  destruct (2 * (M mod 2 ^ n) ?= 2 ^ n); [destruct (Z.even _) | |]; lia.
Qed.

Lemma round_exact_normal (s : bool) (M : positive) (e n : Z) :
  Zpos (digits2_pos M) = 24 + n -> 0 <= n -> -149 <= e + n -> e + n < 104 ->
  binary_round_aux 24 128 s (Zpos M) e loc_Exact =
    if rne (Zpos M) n =? 2 ^ 24
    then S754_finite s 8388608 (e + n + 1)
    else S754_finite s (Z.to_pos (rne (Zpos M) n)) (e + n).
Proof.
  intros Hd Hn Hlo Hhi.
  pose proof (digits2_pos_bounds M) as HB. rewrite Hd in HB.
  replace (24 + n - 1) with (23 + n) in HB by lia.
  pose proof (rne_bounds (Zpos M) n Hn HB) as Hr.
  unfold binary_round_aux.
  assert (E1 : shr_fexp 24 128 (Zpos M) e loc_Exact
               = (shr_after (Zpos M) (Z.to_nat n), e + n)).
  { unfold shr_fexp. cbn [Zdigits2]. rewrite Hd.
    unfold fexp, emin.
    replace (Z.max (24 + n + e - 24) (3 - 128 - 24) - e) with n by lia.
    cbn [shr_record_of_loc].
    destruct n as [| p | p]; [rewrite Z.add_0_r; reflexivity | | lia].
    cbn [shr]. rewrite iter_pos_nat, shr_iter by lia.
    rewrite Z2Nat.inj_pos. reflexivity. }
  rewrite E1.
  rewrite rne_of_shr by lia. rewrite Z2Nat.id by lia.
  set (q := rne (Zpos M) n) in *.
  destruct (q =? 2 ^ 24) eqn:Eq.
  - apply Z.eqb_eq in Eq. rewrite Eq.
    change (2 ^ 24) with 16777216.
    unfold shr_fexp. cbn [Zdigits2 digits2_pos Pos.succ].
    unfold fexp, emin.
    replace (Z.max (25 + (e + n) - 24) (3 - 128 - 24) - (e + n)) with 1 by lia.
    cbn.
    replace (e + n + 1 <=? 104) with true by (symmetry; apply Z.leb_le; lia).
    reflexivity.
  - apply Z.eqb_neq in Eq.
    destruct q as [| mq | mq] eqn:Eqq; try lia.
    assert (Hdq : Zpos (digits2_pos mq) = 24).
    { apply digits2_pos_unique; lia. }
    unfold shr_fexp. cbn [Zdigits2]. rewrite Hdq.
    unfold fexp, emin.
    replace (Z.max (24 + (e + n) - 24) (3 - 128 - 24) - (e + n)) with 0 by lia.
    cbn.
    replace (e + n <=? 104) with true by (symmetry; apply Z.leb_le; lia).
    reflexivity.
Qed.

Lemma round_result_normal (s : bool) (M : positive) (e n : Z) :
  Zpos (digits2_pos M) = 24 + n -> 0 <= n -> -149 <= e + n -> e + n < 104 ->
  exists m' e',
    binary_round_aux 24 128 s (Zpos M) e loc_Exact = S754_finite s m' e'
    /\ Zpos (digits2_pos m') = 24 /\ e + n <= e' <= e + n + 1.
Proof.
  intros Hd Hn Hlo Hhi.
  rewrite (round_exact_normal s M e n Hd Hn Hlo Hhi).
  pose proof (digits2_pos_bounds M) as HB. rewrite Hd in HB.
  replace (24 + n - 1) with (23 + n) in HB by lia.
  pose proof (rne_bounds (Zpos M) n Hn HB) as Hr.
  destruct (rne (Zpos M) n =? 2 ^ 24) eqn:E.
  - exists 8388608%positive, (e + n + 1). split; [reflexivity |].
    split; [reflexivity | lia].
  - apply Z.eqb_neq in E.
    exists (Z.to_pos (rne (Zpos M) n)), (e + n). split; [reflexivity |].
    split; [| lia].
    apply digits2_pos_unique; [| lia].
    rewrite Z2Pos.id by lia. change (2 ^ (24 - 1)) with (2 ^ 23). lia.
Qed.

Lemma pos_iter_xO (m d : positive) :
  Zpos (Pos.iter xO m d) = Zpos m * 2 ^ Zpos d.
Proof.
  induction d as [| d IH] using Pos.peano_ind.
  - cbn [Pos.iter]. rewrite Pos2Z.inj_xO. change (2 ^ 1) with 2. lia.
  - rewrite Pos.iter_succ, Pos2Z.inj_xO, IH, Pos2Z.inj_succ, Z.pow_succ_r by lia.
    lia.
Qed.

Lemma shl_align_spec (m : positive) (e e' : Z) :
  e' <= e ->
  Zpos (fst (shl_align m e e')) = Zpos m * 2 ^ (e - e').
Proof.
  intros H. unfold shl_align.
  destruct (e' - e) as [| d | d] eqn:E; cbn [fst].
  - replace (e - e') with 0 by lia. lia.
  - lia.
  - rewrite pos_iter_xO. replace (e - e') with (Zpos d) by lia. reflexivity.
Qed.

Lemma binary_round_long (s : bool) (M : positive) (e : Z) :
  24 <= Zpos (digits2_pos M) ->
  binary_round 24 128 s M e = binary_round_aux 24 128 s (Zpos M) e loc_Exact.
Proof.
  intros H. unfold binary_round, shl_align, fexp, emin.
  destruct (Z.max (Z.pos (digits2_pos M) + e - 24) (3 - 128 - 24) - e) eqn:E;
    try reflexivity. lia.
Qed.

(** The sum of two positive finite numbers is the rounding of the exact
    sum of the aligned mantissas. *)
Lemma add_aligned (m1 m2 M : positive) (e1 e2 : Z) :
  e2 <= e1 ->
  Zpos M = Zpos m1 * 2 ^ (e1 - e2) + Zpos m2 ->
  24 <= Zpos (digits2_pos M) ->
  (S754_finite false m1 e1 + S754_finite false m2 e2)%f32
  = binary_round_aux 24 128 false (Zpos M) e2 loc_Exact.
Proof.
  intros He HM Hd. unfold F32.add. cbn [SFadd cond_Zopp].
  rewrite (Z.min_r e1 e2 He).
  rewrite <- (shl_align_spec m1 e1 e2 He) in HM.
  replace (Zpos m2) with (Zpos (fst (shl_align m2 e2 e2))) in HM
    by (rewrite shl_align_spec, Z.sub_diag by lia; lia).
  rewrite <- HM. cbn [binary_normalize].
  apply binary_round_long. exact Hd.
Qed.

(** The difference of two positive finite numbers, the first the larger. *)
Lemma sub_aligned (m1 m2 M : positive) (e1 e2 : Z) :
  e2 <= e1 ->
  Zpos M = Zpos m1 * 2 ^ (e1 - e2) - Zpos m2 ->
  24 <= Zpos (digits2_pos M) ->
  (S754_finite false m1 e1 - S754_finite false m2 e2)%f32
  = binary_round_aux 24 128 false (Zpos M) e2 loc_Exact.
Proof.
  intros He HM Hd. unfold F32.sub. cbn [SFsub cond_Zopp].
  rewrite (Z.min_r e1 e2 He).
  rewrite <- (shl_align_spec m1 e1 e2 He) in HM.
  replace (Zpos m2) with (Zpos (fst (shl_align m2 e2 e2))) in HM
    by (rewrite shl_align_spec, Z.sub_diag by lia; lia).
  rewrite <- HM. cbn [binary_normalize].
  apply binary_round_long. exact Hd.
Qed.

Lemma rne_exact (m n : Z) : 0 <= n -> rne (m * 2 ^ n) n = m.
Proof.
  intros Hn. unfold rne.
  assert (0 < 2 ^ n) by (apply Z.pow_pos_nonneg; lia).
  rewrite Z.mod_mul, Z.div_mul by lia. reflexivity.
Qed.

Lemma round_exact_shift (s : bool) (m : positive) (e n : Z) :
  Zpos (digits2_pos m) = 24 -> 0 <= n -> -149 <= e + n -> e + n < 104 ->
  forall M : positive, Zpos M = Zpos m * 2 ^ n ->
  binary_round_aux 24 128 s (Zpos M) e loc_Exact = S754_finite s m (e + n).
Proof.
  intros Hd Hn Hlo Hhi M HM.
  pose proof (digits2_pos_bounds m) as HB. rewrite Hd in HB.
  assert (Hp : 0 < 2 ^ n) by (apply Z.pow_pos_nonneg; lia).
  assert (HdM : Zpos (digits2_pos M) = 24 + n).
  { apply digits2_pos_unique; [| lia]. rewrite HM.
    replace (24 + n - 1) with (23 + n) by lia.
    rewrite !Z.pow_add_r by lia. change (24 - 1) with 23 in HB. nia. }
  rewrite (round_exact_normal s M e n HdM Hn Hlo Hhi).
  rewrite HM, rne_exact by lia.
  replace (Zpos m =? 2 ^ 24) with false by (symmetry; apply Z.eqb_neq; lia).
  reflexivity.
Qed.

Lemma add_self (m : positive) (e : Z) :
  Zpos (digits2_pos m) = 24 -> -150 <= e -> e < 103 ->
  (S754_finite false m e + S754_finite false m e)%f32 = S754_finite false m (e + 1).
Proof.
  intros Hd Hlo Hhi.
  assert (HM : Zpos m~0 = Zpos m * 2 ^ (e - e) + Zpos m).
  { rewrite Z.sub_diag. change (2 ^ 0) with 1. lia. }
  assert (HdM : 24 <= Zpos (digits2_pos m~0)) by (cbn [digits2_pos]; lia).
  rewrite (add_aligned m m (m~0) e e (Z.le_refl e) HM HdM).
  apply round_exact_shift; lia.
Qed.

Lemma mul_half (m : positive) (e : Z) :
  Zpos (digits2_pos m) = 24 -> -148 <= e -> e < 105 ->
  (Lit.f0_5 * S754_finite false m e)%f32 = S754_finite false m (e - 1).
Proof.
  intros Hd Hlo Hhi. unfold F32.mul, Lit.f0_5. cbn [SFmul xorb].
  replace (e - 1) with (-24 + e + 23) by lia.
  apply round_exact_shift; lia.
Qed.

Lemma sub_double (m : positive) (e : Z) :
  Zpos (digits2_pos m) = 24 -> -149 <= e -> e < 104 ->
  (S754_finite false m (e + 1) - S754_finite false m e)%f32 = S754_finite false m e.
Proof.
  intros Hd Hlo Hhi.
  assert (HM : Zpos m = Zpos m * 2 ^ (e + 1 - e) - Zpos m).
  { replace (e + 1 - e) with 1 by lia. change (2 ^ 1) with 2. lia. }
  assert (HdM : 24 <= Zpos (digits2_pos m)) by lia.
  rewrite (sub_aligned m m m (e + 1) e ltac:(lia) HM HdM).
  replace e with (e + 0) at 2 by lia.
  apply round_exact_shift; lia.
Qed.

Ltac rne_cases :=
  unfold rne;
  change (2 ^ 1) with 2 in *; change (2 ^ 2) with 4 in *;
  repeat match goal with
    | |- context [Z.even ?x] => rewrite (Zeven_mod x)
    | |- context [?a =? ?b] =>
        let E := fresh "E" in
        destruct (a =? b) eqn:E;
        [apply Z.eqb_eq in E | apply Z.eqb_neq in E]
    | |- context [?a ?= ?b] =>
        destruct (Z.compare_spec a b)
    end.

(** Adding [m] to the rounded [3 m] and rounding again gives [4 m], for both
    positions of the leading bit of [3 m]. *)
Lemma rne_three_plus_one (m n : Z) :
  2 ^ 23 <= m < 2 ^ 24 -> n = 1 \/ n = 2 ->
  2 ^ (23 + n) <= 3 * m < 2 ^ (24 + n) ->
  rne (3 * m) n <> 2 ^ 24
  /\ 2 ^ 25 <= rne (3 * m) n * 2 ^ n + m < 2 ^ 26
  /\ rne (rne (3 * m) n * 2 ^ n + m) 2 = m.
Proof.
  intros Hm [-> | ->] H3.
  - change (2 ^ (23 + 1)) with 16777216 in H3.
    change (2 ^ (24 + 1)) with 33554432 in H3.
    change (2 ^ 23) with 8388608 in *. change (2 ^ 24) with 16777216 in *.
    change (2 ^ 25) with 33554432. change (2 ^ 26) with 67108864.
    split; [| split]; rne_cases; Z.div_mod_to_equations; lia.
  - change (2 ^ (23 + 2)) with 33554432 in H3.
    change (2 ^ (24 + 2)) with 67108864 in H3.
    change (2 ^ 23) with 8388608 in *. change (2 ^ 24) with 16777216 in *.
    change (2 ^ 25) with 33554432. change (2 ^ 26) with 67108864.
    split; [| split]; rne_cases; Z.div_mod_to_equations; lia.
Qed.

Lemma mantissa_bounds (m : positive) :
  Zpos (digits2_pos m) = 24 -> 2 ^ 23 <= Zpos m < 2 ^ 24.
Proof.
  intros Hd. pose proof (digits2_pos_bounds m) as HB. rewrite Hd in HB.
  exact HB.
Qed.

Lemma sum_of_four (m : positive) (e : Z) :
  Zpos (digits2_pos m) = 24 -> -149 <= e -> e < 102 ->
  let q := S754_finite false m e in
  (q + q + q + q)%f32 = S754_finite false m (e + 2).
Proof.
  intros Hd Hlo Hhi q. unfold q.
  pose proof (mantissa_bounds m Hd) as Hm.
  rewrite add_self by lia.
  (* 2q + q: the exact sum is 3 m, of 25 or 26 digits *)
  assert (Hn : exists n, (n = 1 \/ n = 2)
                         /\ 2 ^ (23 + n) <= 3 * Zpos m < 2 ^ (24 + n)).
  { change (2 ^ 23) with 8388608 in Hm. change (2 ^ 24) with 16777216 in Hm.
    destruct (Z_lt_le_dec (3 * Zpos m) (2 ^ 25)) as [H | H];
      change (2 ^ 25) with 33554432 in H.
    - exists 1. split; [left; reflexivity |].
      change (2 ^ (23 + 1)) with 16777216. change (2 ^ (24 + 1)) with 33554432.
      lia.
    - exists 2. split; [right; reflexivity |].
      change (2 ^ (23 + 2)) with 33554432. change (2 ^ (24 + 2)) with 67108864.
      lia. }
  destruct Hn as [n [Hn H3]].
  destruct (rne_three_plus_one (Zpos m) n Hm Hn H3) as [Hne [H4 Hr]].
  assert (Hn0 : 0 <= n) by (destruct Hn; lia).
  pose proof (rne_bounds (3 * Zpos m) n Hn0 H3) as Hb.
  set (r := rne (3 * Zpos m) n) in *.
  assert (HM3 : Zpos (m~0 + m) = Zpos m * 2 ^ (e + 1 - e) + Zpos m).
  { replace (e + 1 - e) with 1 by lia. change (2 ^ 1) with 2. lia. }
  assert (Hd3 : Zpos (digits2_pos (m~0 + m)) = 24 + n).
  { apply digits2_pos_unique; [| lia].
    replace (24 + n - 1) with (23 + n) by lia.
    replace (Zpos (m~0 + m)) with (3 * Zpos m) by lia. exact H3. }
  rewrite (add_aligned m m (m~0 + m) (e + 1) e ltac:(lia) HM3 ltac:(lia)).
  rewrite (round_exact_normal false (m~0 + m) e n Hd3 Hn0)
    by (destruct Hn; lia).
  replace (Zpos (m~0 + m)) with (3 * Zpos m) by lia. fold r.
  replace (r =? 2 ^ 24) with false by (symmetry; apply Z.eqb_neq; exact Hne).
  (* the rounded 3q plus q: the exact sum has 26 digits *)
  set (M4 := Z.to_pos (r * 2 ^ n + Zpos m)).
  assert (Hp : 0 < 2 ^ n) by (apply Z.pow_pos_nonneg; lia).
  assert (HM4 : Zpos M4 = r * 2 ^ n + Zpos m).
  { unfold M4. rewrite Z2Pos.id; [reflexivity |].
    change (2 ^ 25) with 33554432 in H4. lia. }
  assert (HM4' : Zpos M4 = Zpos (Z.to_pos r) * 2 ^ (e + n - e) + Zpos m).
  { rewrite HM4. replace (e + n - e) with n by lia.
    rewrite Z2Pos.id; [reflexivity |]. change (2 ^ 23) with 8388608 in Hb. lia. }
  assert (Hd4 : Zpos (digits2_pos M4) = 24 + 2).
  { apply digits2_pos_unique; [| lia]. rewrite HM4. exact H4. }
  rewrite (add_aligned (Z.to_pos r) m M4 (e + n) e ltac:(lia) HM4' ltac:(lia)).
  rewrite (round_exact_normal false M4 e 2 Hd4) by lia.
  rewrite HM4, Hr.
  replace (Zpos m =? 2 ^ 24) with false by (symmetry; apply Z.eqb_neq; lia).
  reflexivity.
Qed.

Lemma div_eucl_exact (m : positive) (k : Z) :
  0 <= k -> Z.div_eucl (Z.shiftl (Zpos m) k) (Zpos m) = (2 ^ k, 0).
Proof.
  intros Hk. rewrite Z.shiftl_mul_pow2 by exact Hk.
  destruct (Z.div_eucl (Zpos m * 2 ^ k) (Zpos m)) as [q r] eqn:E.
  assert (Hq : q = Zpos m * 2 ^ k / Zpos m) by (unfold Z.div; rewrite E; reflexivity).
  assert (Hr : r = (Zpos m * 2 ^ k) mod Zpos m)
    by (unfold Z.modulo; rewrite E; reflexivity).
  rewrite Z.mul_comm in Hq, Hr.
  rewrite Z.div_mul in Hq by lia. rewrite Z.mod_mul in Hr by lia.
  subst. reflexivity.
Qed.

Lemma new_location_zero (nb : Z) : new_location nb 0 = loc_Exact.
Proof.
  unfold new_location, new_location_even, new_location_odd.
  destruct (Z.even nb); reflexivity.
Qed.

Lemma div_double (m : positive) (e : Z) :
  Zpos (digits2_pos m) = 24 ->
  (S754_finite false m (e + 1) / S754_finite false m e)%f32 = Lit.f2.
Proof.
  intros Hd. unfold F32.div. cbn [SFdiv xorb].
  unfold SFdiv_core_binary. cbn [Zdigits2]. rewrite Hd.
  replace (24 + (e + 1) - (24 + e)) with 1 by lia.
  replace (e + 1 - e) with 1 by lia.
  change (Z.min (fexp F32.prec F32.emax 1) 1) with (-23).
  change (1 - -23) with 24. cbv iota.
  change (Z.div_eucl (Z.shiftl (Zpos m) 24) (Zpos m))
    with (Z.div_eucl (Z.shiftl (Zpos m) 24) (Zpos m)).
  rewrite (div_eucl_exact m 24) by lia.
  cbv beta iota zeta. rewrite new_location_zero.
  vm_compute. reflexivity.
Qed.

Lemma div_self (m : positive) (e : Z) :
  Zpos (digits2_pos m) = 24 ->
  (S754_finite false m e / S754_finite false m e)%f32 = Lit.f1.
Proof.
  intros Hd. unfold F32.div. cbn [SFdiv xorb].
  unfold SFdiv_core_binary. cbn [Zdigits2]. rewrite Hd.
  replace (24 + e - (24 + e)) with 0 by lia.
  replace (e - e) with 0 by lia.
  change (Z.min (fexp F32.prec F32.emax 0) 0) with (-24).
  change (0 - -24) with 24. cbv iota.
  rewrite (div_eucl_exact m 24) by lia.
  cbv beta iota zeta. rewrite new_location_zero.
  vm_compute. reflexivity.
Qed.

Lemma mul_two (m : positive) (e : Z) :
  Zpos (digits2_pos m) = 24 -> -150 <= e -> e < 103 ->
  (Lit.f2 * S754_finite false m e)%f32 = S754_finite false m (e + 1).
Proof.
  intros Hd Hlo Hhi. unfold F32.mul, Lit.f2. cbn [SFmul xorb].
  replace (e + 1) with (-22 + e + 23) by lia.
  apply round_exact_shift; lia.
Qed.

(** A normal number is not below a millionth of itself. *)
Lemma guard_false (m : positive) (e : Z) :
  Zpos (digits2_pos m) = 24 -> -129 <= e -> e < 120 ->
  (S754_finite false m e <? S754_finite false m e * CN0_SNV_NSR_MIN_MULTIPLIER)%f32
  = false.
Proof.
  intros Hd Hlo Hhi.
  pose proof (mantissa_bounds m Hd) as Hm.
  change (2 ^ 23) with 8388608 in Hm. change (2 ^ 24) with 16777216 in Hm.
  unfold F32.mul, CN0_SNV_NSR_MIN_MULTIPLIER, F32.prec, F32.emax.
  cbn [SFmul xorb].
  assert (Hn : exists n, (n = 23 \/ n = 24)
                 /\ Zpos (digits2_pos (m * 8796093)) = 24 + n).
  { destruct (Z_lt_le_dec (Zpos (m * 8796093)) (2 ^ 47)) as [H | H];
      change (2 ^ 47) with 140737488355328 in H.
    - exists 23. split; [left; reflexivity |].
      apply digits2_pos_unique; [| lia].
      change (2 ^ (24 + 23 - 1)) with 70368744177664.
      change (2 ^ (24 + 23)) with 140737488355328. lia.
    - exists 24. split; [right; reflexivity |].
      apply digits2_pos_unique; [| lia].
      change (2 ^ (24 + 24 - 1)) with 140737488355328.
      change (2 ^ (24 + 24)) with 281474976710656. lia. }
  destruct Hn as [n [Hn Hdn]].
  destruct (round_result_normal false (m * 8796093) (e + -43) n Hdn)
    as [m' [e' [Hr [_ He']]]]; try (destruct Hn; lia).
  rewrite Hr. unfold F32.ltb, SFltb. cbn [SFcompare].
  replace (e ?= e') with Gt
    by (symmetry; apply Z.compare_gt_iff; destruct Hn; lia).
  reflexivity.
Qed.

Lemma mid_range_inv (c : F32.t) :
  mid_range c = true ->
  exists m e, F32.fabsf c = S754_finite false m e
              /\ Zpos (digits2_pos m) = 24 /\ -74 <= e <= 38.
Proof.
  destruct c as [s | s | | s m e]; try discriminate. cbn [mid_range].
  intros H. apply andb_true_iff in H as [H H3]. apply andb_true_iff in H as [H1 H2].
  exists m, e. split; [reflexivity |]. lia.
Qed.

Lemma half_sum_self (c : F32.t) :
  mid_range c = true ->
  (Lit.f0_5 * (F32.fabsf c + F32.fabsf c))%f32 = F32.fabsf c.
Proof.
  intros H. destruct (mid_range_inv c H) as [m [e [-> [Hd He]]]].
  rewrite add_self, mul_half by lia. f_equal. lia.
Qed.

Lemma square_normal (c : F32.t) :
  mid_range c = true ->
  exists m e, (F32.fabsf c * F32.fabsf c)%f32 = S754_finite false m e
              /\ Zpos (digits2_pos m) = 24 /\ -125 <= e <= 101.
Proof.
  intros H. destruct (mid_range_inv c H) as [m [e [-> [Hd He]]]].
  pose proof (mantissa_bounds m Hd) as Hm.
  change (2 ^ 23) with 8388608 in Hm. change (2 ^ 24) with 16777216 in Hm.
  unfold F32.mul, F32.prec, F32.emax. cbn [SFmul xorb].
  assert (Hn : exists n, (n = 23 \/ n = 24)
                 /\ Zpos (digits2_pos (m * m)) = 24 + n).
  { destruct (Z_lt_le_dec (Zpos (m * m)) (2 ^ 47)) as [H' | H'];
      change (2 ^ 47) with 140737488355328 in H'.
    - exists 23. split; [left; reflexivity |].
      apply digits2_pos_unique; [| lia].
      change (2 ^ (24 + 23 - 1)) with 70368744177664.
      change (2 ^ (24 + 23)) with 140737488355328. nia.
    - exists 24. split; [right; reflexivity |].
      apply digits2_pos_unique; [| lia].
      change (2 ^ (24 + 24 - 1)) with 140737488355328.
      change (2 ^ (24 + 24)) with 281474976710656. nia. }
  destruct Hn as [n [Hn Hdn]].
  destruct (round_result_normal false (m * m) (e + e) n Hdn)
    as [m' [e' [Hr [Hd' He']]]]; try (destruct Hn; lia).
  exists m', e'. split; [exact Hr |]. split; [exact Hd' |].
  destruct Hn; lia.
Qed.

(** For every [c] in the middle range, four equal magnitudes [|c|] give
    P_tot = 2 P_s, P_n = P_s and nsr = 2. *)
Lemma equal_magnitudes_ratio (c : F32.t) :
  mid_range c = true ->
  let m := F32.fabsf c in
  P_s m m = (m * m)%f32
  /\ P_tot m m m m = (Lit.f2 * P_s m m)%f32
  /\ P_n m m m m = P_s m m
  /\ nsr m m m m = Lit.f2.
Proof.
  intros H m.
  assert (HPs : P_s m m = (m * m)%f32).
  { unfold P_s, m. rewrite (half_sum_self c H). reflexivity. }
  destruct (square_normal c H) as [mq [eq [Hq [Hd He]]]]. fold m in Hq.
  assert (HPt : P_tot m m m m = S754_finite false mq (eq + 1)).
  { unfold P_tot. rewrite Hq, sum_of_four, mul_half by lia. f_equal. lia. }
  assert (HPn : P_n m m m m = P_s m m).
  { unfold P_n. rewrite HPt, HPs, Hq. apply sub_double; lia. }
  split; [exact HPs |].
  split; [rewrite HPt, HPs, Hq, mul_two by lia; reflexivity |].
  split; [exact HPn |].
  unfold nsr. rewrite HPn, HPt, HPs, Hq.
  rewrite guard_false by lia. apply div_double. exact Hd.
Qed.

Lemma sub_self (m : positive) (e : Z) :
  (S754_finite false m e - S754_finite false m e)%f32 = Lit.f0.
Proof.
  unfold F32.sub, SFsub, cond_Zopp, shl_align.
  rewrite Z.min_id.
  repeat (rewrite Z.sub_diag; cbv beta iota zeta; unfold fst).
  reflexivity.
Qed.

(** For every [c] in the middle range, the magnitudes [(|c|, 0)] twice give
    P_tot = P_s, P_n = 0 and nsr = 1. *)
Lemma in_phase_only_ratio (c : F32.t) :
  mid_range c = true ->
  let m := F32.fabsf c in
  P_tot m Lit.f0 m Lit.f0 = P_s m m
  /\ P_n m Lit.f0 m Lit.f0 = Lit.f0
  /\ nsr m Lit.f0 m Lit.f0 = Lit.f1.
Proof.
  intros H m.
  assert (HPs : P_s m m = (m * m)%f32).
  { unfold P_s, m. rewrite (half_sum_self c H). reflexivity. }
  destruct (square_normal c H) as [mq [eq [Hq [Hd He]]]]. fold m in Hq.
  assert (HPt : P_tot m Lit.f0 m Lit.f0 = S754_finite false mq eq).
  { unfold P_tot. rewrite Hq.
    change (Lit.f0 * Lit.f0)%f32 with Lit.f0.
    change (Lit.f0 + S754_finite false mq eq)%f32 with (S754_finite false mq eq).
    change (S754_finite false mq eq + Lit.f0)%f32 with (S754_finite false mq eq).
    rewrite add_self, mul_half by lia. f_equal. lia. }
  assert (HPn : P_n m Lit.f0 m Lit.f0 = Lit.f0).
  { unfold P_n. rewrite HPt, HPs, Hq. apply sub_self. }
  split; [rewrite HPt, HPs, Hq; reflexivity |].
  split; [exact HPn |].
  unfold nsr. rewrite HPn, HPt, HPs, Hq.
  change (Lit.f0 * CN0_SNV_NSR_MIN_MULTIPLIER)%f32 with Lit.f0.
  change (S754_finite false mq eq <? Lit.f0)%f32 with false.
  apply div_self. exact Hd.
Qed.

(** ** The estimator *)

Section EstimatorFacts.
Variable log10f : F32.t -> F32.t.

(** The two branches of [cn0_est_snv_update], as equations. *)
Lemma update_first (s : cn0_est_state_t) (I Q : F32.t) :
  first_iteration s = true ->
  cn0_est_snv_update log10f s I Q =
    ({| log_bw := log_bw s; I_prev_abs := F32.fabsf I;
        Q_prev_abs := F32.fabsf Q; cn0 := cn0 s |}, cn0 s).
Proof.
  unfold first_iteration, cn0_est_snv_update; cbn -[F32.ltb Lit.f0].
  intros ->. reflexivity.
Qed.

Lemma update_later (s : cn0_est_state_t) (I Q : F32.t) :
  first_iteration s = false ->
  let c := (log_bw s - Lit.f10 * log10f
              (nsr (F32.fabsf I) (F32.fabsf Q) (I_prev_abs s) (Q_prev_abs s)))%f32 in
  cn0_est_snv_update log10f s I Q =
    ({| log_bw := log_bw s; I_prev_abs := F32.fabsf I;
        Q_prev_abs := F32.fabsf Q; cn0 := c |}, c).
Proof.
  unfold first_iteration, cn0_est_snv_update; cbn -[F32.ltb Lit.f0 nsr].
  intros ->. reflexivity.
Qed.

Lemma update_prev_fields (s : cn0_est_state_t) (I Q : F32.t) :
  I_prev_abs (fst (cn0_est_snv_update log10f s I Q)) = F32.fabsf I /\
  Q_prev_abs (fst (cn0_est_snv_update log10f s I Q)) = F32.fabsf Q.
Proof.
  destruct (first_iteration s) eqn:E.
  - rewrite (update_first s I Q E). split; reflexivity.
  - rewrite (update_later s I Q E). split; reflexivity.
Qed.

Lemma init_first_iteration (bw cn0_0 f_s f_i : F32.t) :
  first_iteration (cn0_est_snv_init log10f bw cn0_0 f_s f_i) = true.
Proof. reflexivity. Qed.

(** C4: the first call of [cn0_est_snv_update] after [cn0_est_snv_init]
    returns the initial value [cn0_0] whatever [I] and [Q] are, leaves the
    [cn0] and [log_bw] fields as init set them, and writes only the two
    previous-magnitude fields (with [|I|] and [|Q|]).  It holds for all
    init parameters, the valid ones included. *)
Theorem first_update_returns_initial (bw cn0_0 f_s f_i I Q : F32.t) :
  let s0 := cn0_est_snv_init log10f bw cn0_0 f_s f_i in
  cn0_est_snv_update log10f s0 I Q =
    ({| log_bw := log_bw s0; I_prev_abs := F32.fabsf I;
        Q_prev_abs := F32.fabsf Q; cn0 := cn0_0 |}, cn0_0)
  /\ cn0 (fst (cn0_est_snv_update log10f s0 I Q)) = cn0 s0.
Proof.
  intros s0.
  rewrite (update_first s0 I Q (init_first_iteration bw cn0_0 f_s f_i)).
  split; reflexivity.
Qed.

Lemma entry_states_later (s : cn0_est_state_t) (iq : list (F32.t * F32.t)) :
  first_iteration s = false ->
  Forall (fun st => first_iteration st = false) (cn0_entry_states log10f s iq).
Proof.
  revert s. induction iq as [| [i q] rest IH]; intros s Hs; cbn [cn0_entry_states].
  - constructor.
  - constructor; [exact Hs |]. apply IH.
    unfold first_iteration.
    rewrite (proj1 (update_prev_fields s i q)). apply fabsf_not_negative.
Qed.

(** C10: every call of [cn0_est_snv_update], the first one included,
    stores [|I|] and [|Q|] in the previous-magnitude fields.  After any
    call neither field is negative: the sign bit is clear, the sentinel
    test [I_prev_abs < 0.f] is false, and [0 <= field] holds exactly when
    the input was not a NaN.  So in any run of calls the first-iteration
    branch can be taken by the first call only. *)
Theorem prev_fields_overwritten (s : cn0_est_state_t) (I Q : F32.t)
  (rest : list (F32.t * F32.t)) :
  let s' := fst (cn0_est_snv_update log10f s I Q) in
  (I_prev_abs s' = F32.fabsf I /\ Q_prev_abs s' = F32.fabsf Q)
  /\ (F32.signbit (I_prev_abs s') = false /\ F32.signbit (Q_prev_abs s') = false)
  /\ ((I_prev_abs s' <? Lit.f0)%f32 = false /\ (Q_prev_abs s' <? Lit.f0)%f32 = false)
  /\ (F32.leb Lit.f0 (I_prev_abs s') = negb (F32.is_nan I)
      /\ F32.leb Lit.f0 (Q_prev_abs s') = negb (F32.is_nan Q))
  /\ first_iteration s' = false
  /\ Forall (fun st => first_iteration st = false)
       (tl (cn0_entry_states log10f s ((I, Q) :: rest))).
Proof.
  intros s'. destruct (update_prev_fields s I Q) as [HI HQ].
  fold s' in HI, HQ.
  assert (Hs' : first_iteration s' = false).
  { unfold first_iteration. rewrite HI. apply fabsf_not_negative. }
  split; [split; assumption |].
  split; [rewrite HI, HQ; split; apply fabsf_signbit |].
  split; [rewrite HI, HQ; split; apply fabsf_not_negative |].
  split; [rewrite HI, HQ; split; apply fabsf_nonneg_iff |].
  split; [exact Hs' |].
  cbn [cn0_entry_states tl]. apply entry_states_later. exact Hs'.
Qed.
End EstimatorFacts.

(** ** The filter *)

Lemma lp1_run_coefficients (values : list F32.t) (f : lp1_filter_t) :
  a (fst (lp1_run f values)) = a f /\ b (fst (lp1_run f values)) = b f.
Proof.
  revert f. induction values as [| v rest IH]; intros f; cbn [lp1_run].
  - split; reflexivity.
  - destruct (lp1_filter_update f v) as [f1 y] eqn:E1.
    destruct (lp1_run f1 rest) as [f2 ys] eqn:E2.
    specialize (IH f1). rewrite E2 in IH. cbn [fst] in *.
    unfold lp1_filter_update in E1. inversion E1; subst f1.
    exact IH.
Qed.

(** C9: [lp1_filter_update] leaves the coefficients [a] and [b] as they
    were, for every filter state and input; the fields it writes are [xn]
    (the scaled input) and [yn] (the returned output).  The coefficients
    therefore stay fixed along any run of updates. *)
Theorem update_keeps_coefficients (f : lp1_filter_t) (value : F32.t)
  (values : list F32.t) :
  let f' := fst (lp1_filter_update f value) in
  (a f' = a f /\ b f' = b f)
  /\ (xn f' = (b f * value)%f32 /\ yn f' = snd (lp1_filter_update f value))
  /\ (a (fst (lp1_run f values)) = a f /\ b (fst (lp1_run f values)) = b f).
Proof.
  intros f'. split; [split; reflexivity |].
  split; [split; reflexivity |].
  apply lp1_run_coefficients.
Qed.

(** ** The estimator against the reference definition *)

(** Binary32 addition is commutative, special values included. *)
Lemma F32_add_comm (x y : F32.t) : (x + y)%f32 = (y + x)%f32.
Proof.
  unfold F32.add.
  destruct x as [sx | sx | | sx mx ex], y as [sy | sy | | sy my ey];
    try reflexivity; try (destruct sx, sy; reflexivity).
  cbn [SFadd]. rewrite (Z.min_comm ey ex). f_equal. apply Z.add_comm.
Qed.

Lemma P_s_reference (I_abs I_prev : F32.t) :
  P_s I_abs I_prev = Spec.P_s I_abs I_prev.
Proof. reflexivity. Qed.

Lemma P_tot_reference_QI (I_abs Q_abs I_prev Q_prev : F32.t) :
  P_tot I_abs Q_abs I_prev Q_prev = Spec.P_tot_QI I_abs Q_abs I_prev Q_prev.
Proof.
  unfold P_tot, Spec.P_tot_QI.
  rewrite (F32_add_comm (Q_prev * Q_prev)%f32 (I_prev * I_prev)%f32).
  reflexivity.
Qed.

Lemma nsr_reference_QI (I_abs Q_abs I_prev Q_prev : F32.t) :
  nsr I_abs Q_abs I_prev Q_prev = Spec.nsr_QI I_abs Q_abs I_prev Q_prev.
Proof.
  unfold nsr, P_n, Spec.nsr_QI, Spec.nsr_of.
  rewrite P_tot_reference_QI, P_s_reference. reflexivity.
Qed.

(** The total power of the reference is half the left-to-right sum of its
    four squares, and the two orders hold the same four squares. *)
Lemma reference_total_power_addends (absI absQ prevAbsI prevAbsQ : F32.t) :
  Permutation (Spec.squares_QI absI absQ prevAbsI prevAbsQ)
              (Spec.squares absI absQ prevAbsI prevAbsQ)
  /\ Spec.P_tot_QI absI absQ prevAbsI prevAbsQ
     = (Lit.f0_5 * fold_left F32.add
                     (tl (Spec.squares_QI absI absQ prevAbsI prevAbsQ))
                     (hd Lit.f0 (Spec.squares_QI absI absQ prevAbsI prevAbsQ)))%f32
  /\ Spec.P_tot absI absQ prevAbsI prevAbsQ
     = (Lit.f0_5 * fold_left F32.add
                     (tl (Spec.squares absI absQ prevAbsI prevAbsQ))
                     (hd Lit.f0 (Spec.squares absI absQ prevAbsI prevAbsQ)))%f32.
Proof.
  split; [| split; reflexivity].
  unfold Spec.squares_QI, Spec.squares.
  do 2 apply perm_skip. apply perm_swap.
Qed.

(** C1: for every state and every inputs I, Q, [cn0_est_snv_update] computes
    the reference definition of the specification: P_s = (0.5·(|I| +
    prevAbsI))², P_tot half the sum of the four squares prevAbsI²,
    prevAbsQ², |Q|², |I|² (the specification fixes no order for them; this
    is the one the code sums in, up to the commuting first two), nsr = 1e6
    if P_s < (P_tot − P_s)·1e-6 and P_tot/P_s otherwise, the returned and
    stored cn0 = log_bw − 10·log10f(nsr), and (|I|, |Q|) stored as the new
    previous pair.  It holds in every state, past the bootstrap or not. *)
Theorem update_refines_reference_QI (log10f : F32.t -> F32.t)
  (s : cn0_est_state_t) (I Q : F32.t) :
  cn0_est_snv_update log10f s I Q = Spec.cn0Update_QI log10f s I Q.
Proof.
  unfold Spec.cn0Update_QI, Spec.cn0Update_with.
  destruct (first_iteration s) eqn:E.
  - rewrite (update_first log10f s I Q E).
    unfold first_iteration in E. rewrite E. reflexivity.
  - rewrite (update_later log10f s I Q E).
    unfold first_iteration in E. rewrite E.
    rewrite nsr_reference_QI. reflexivity.
Qed.

(** ** Degenerate and constant inputs *)

Section EstimatorInputs.
Variable log10f : F32.t -> F32.t.

Lemma fabsf_of_zero (x : F32.t) : F32.is_zero x = true -> F32.fabsf x = Lit.f0.
Proof. destruct x as [s | s | | s m e]; try discriminate. reflexivity. Qed.

(** With the stored pair already the magnitudes of a constant input
    (i, q), every update returns the same value. *)
Lemma run_constant_inputs (i q : F32.t) (k : nat) (s : cn0_est_state_t) :
  I_prev_abs s = F32.fabsf i -> Q_prev_abs s = F32.fabsf q ->
  let mi := F32.fabsf i in
  let mq := F32.fabsf q in
  let v := (log_bw s - Lit.f10 * log10f (nsr mi mq mi mq))%f32 in
  cn0_run log10f s (repeat (i, q) (S k)) =
    ({| log_bw := log_bw s; I_prev_abs := mi; Q_prev_abs := mq; cn0 := v |},
     repeat v (S k)).
Proof.
  intros HI HQ mi mq. revert s HI HQ.
  induction k as [| k IH]; intros s HI HQ v.
  - cbn [repeat cn0_run].
    rewrite (update_later log10f s i q);
      [| unfold first_iteration; rewrite HI; apply fabsf_not_negative].
    cbv zeta. rewrite HI, HQ. reflexivity.
  - change (repeat (i, q) (S (S k))) with ((i, q) :: repeat (i, q) (S k)).
    cbn [cn0_run].
    rewrite (update_later log10f s i q);
      [| unfold first_iteration; rewrite HI; apply fabsf_not_negative].
    cbv zeta. rewrite HI, HQ. fold mi. fold mq. fold v.
    rewrite IH by reflexivity.
    cbn [log_bw]. fold v. reflexivity.
Qed.

(** The same from any state: the first update stores the pair. *)
Lemma run_constant_inputs_any (i q : F32.t) (k : nat) (s : cn0_est_state_t) :
  let mi := F32.fabsf i in
  let mq := F32.fabsf q in
  let v := (log_bw s - Lit.f10 * log10f (nsr mi mq mi mq))%f32 in
  cn0_run log10f s (repeat (i, q) (S (S k))) =
    ({| log_bw := log_bw s; I_prev_abs := mi; Q_prev_abs := mq; cn0 := v |},
     snd (cn0_est_snv_update log10f s i q) :: repeat v (S k)).
Proof.
  intros mi mq v.
  change (repeat (i, q) (S (S k))) with ((i, q) :: repeat (i, q) (S k)).
  cbn [cn0_run].
  destruct (cn0_est_snv_update log10f s i q) as [s1 r] eqn:E.
  assert (H1 : s1 = fst (cn0_est_snv_update log10f s i q))
    by (rewrite E; reflexivity).
  destruct (update_prev_fields log10f s i q) as [HI HQ].
  rewrite <- H1 in HI, HQ.
  assert (Hbw : log_bw s1 = log_bw s).
  { rewrite H1. destruct (first_iteration s) eqn:F.
    - rewrite (update_first log10f s i q F). reflexivity.
    - rewrite (update_later log10f s i q F). reflexivity. }
  rewrite (run_constant_inputs i q k s1 HI HQ). cbv zeta.
  rewrite Hbw. reflexivity.
Qed.

Lemma sub_zero_r (x : F32.t) : (x - Lit.f0)%f32 = x.
Proof. destruct x as [[|] | | |]; reflexivity. Qed.

(** X11: constant in-phase input and no quadrature input: for every [c] in
    the middle range, with I = c and Q = 0 on every update, every update after
    the first has P_tot = P_s and nsr = 1 and returns [log_bw] exactly,
    for a [log10f] with log10f(1) = 0. *)
Lemma in_phase_only_fixed_value (s : cn0_est_state_t) (c : F32.t) (k : nat) :
  log10f Lit.f1 = Lit.f0 ->
  mid_range c = true ->
  cn0_run log10f s (repeat (c, Lit.f0) (S (S k))) =
    ({| log_bw := log_bw s; I_prev_abs := F32.fabsf c; Q_prev_abs := Lit.f0;
        cn0 := log_bw s |},
     snd (cn0_est_snv_update log10f s c Lit.f0) :: repeat (log_bw s) (S k)).
Proof.
  intros H1 Hc.
  rewrite (run_constant_inputs_any c Lit.f0 k s). cbv zeta.
  change (F32.fabsf Lit.f0) with Lit.f0.
  destruct (in_phase_only_ratio c Hc) as [_ [_ Hnsr]]. rewrite Hnsr, H1.
  change (Lit.f10 * Lit.f0)%f32 with Lit.f0. rewrite sub_zero_r.
  reflexivity.
Qed.
End EstimatorInputs.

(** With I = 0 and Q = 0 the guard holds for a stored pair (0, |c|) with
    [c] in the middle range: P_s = 0 and P_n = 0.5·c² is a normal number,
    whose millionth is above zero. *)
Lemma quadrature_only_guard (c : F32.t) :
  mid_range c = true ->
  (P_s Lit.f0 Lit.f0
     <? P_n Lit.f0 Lit.f0 Lit.f0 (F32.fabsf c) * CN0_SNV_NSR_MIN_MULTIPLIER)%f32
  = true.
Proof.
  intros H. destruct (square_normal c H) as [mq [eq [Hq [Hd He]]]].
  pose proof (mantissa_bounds mq Hd) as Hm.
  change (2 ^ 23) with 8388608 in Hm. change (2 ^ 24) with 16777216 in Hm.
  change (P_s Lit.f0 Lit.f0) with Lit.f0.
  unfold P_n, P_tot. change (P_s Lit.f0 Lit.f0) with Lit.f0. rewrite Hq.
  change (Lit.f0 * Lit.f0)%f32 with Lit.f0.
  repeat change (S754_finite false mq eq + Lit.f0)%f32
    with (S754_finite false mq eq).
  rewrite mul_half by lia.
  change (S754_finite false mq (eq - 1) - Lit.f0)%f32
    with (S754_finite false mq (eq - 1)).
  unfold F32.mul, CN0_SNV_NSR_MIN_MULTIPLIER, F32.prec, F32.emax.
  cbn [SFmul xorb].
  assert (Hn : exists n, (n = 23 \/ n = 24)
                 /\ Zpos (digits2_pos (mq * 8796093)) = 24 + n).
  { destruct (Z_lt_le_dec (Zpos (mq * 8796093)) (2 ^ 47)) as [H' | H'];
      change (2 ^ 47) with 140737488355328 in H'.
    - exists 23. split; [left; reflexivity |].
      apply digits2_pos_unique; [| lia].
      change (2 ^ (24 + 23 - 1)) with 70368744177664.
      change (2 ^ (24 + 23)) with 140737488355328. lia.
    - exists 24. split; [right; reflexivity |].
      apply digits2_pos_unique; [| lia].
      change (2 ^ (24 + 24 - 1)) with 140737488355328.
      change (2 ^ (24 + 24)) with 281474976710656. lia. }
  destruct Hn as [n [Hn Hdn]].
  destruct (round_result_normal false (mq * 8796093) (eq - 1 + -43) n Hdn)
    as [m' [e' [Hr _]]]; try (destruct Hn; lia).
  rewrite Hr. reflexivity.
Qed.

(** Past the bootstrap with the stored pair (1, 0), an update with I = 0
    and Q = 0 has P_s = 0.25 and P_n = 0.25; the guard is false and the
    division branch gives nsr = 2. *)
Example zero_input_division_branch :
  let s := {| log_bw := Val.fm30; I_prev_abs := Lit.f1;
              Q_prev_abs := Lit.f0; cn0 := Lit.f0 |} in
  let I_abs := F32.fabsf Lit.f0 in
  let Q_abs := F32.fabsf Lit.f0 in
  first_iteration s = false
  /\ (P_s I_abs (I_prev_abs s)
        <? P_n I_abs Q_abs (I_prev_abs s) (Q_prev_abs s)
           * CN0_SNV_NSR_MIN_MULTIPLIER)%f32 = false
  /\ nsr I_abs Q_abs (I_prev_abs s) (Q_prev_abs s) = Lit.f2
  /\ nsr I_abs Q_abs (I_prev_abs s) (Q_prev_abs s) <> CN0_SNV_NSR_MIN.
Proof.
  cbv zeta. repeat split; try (vm_compute; reflexivity).
  vm_compute; discriminate.
Qed.

(** The stored pair (0, 0) with I = 0 and Q = 0: P_s and P_n are both 0,
    [0 < 0] is false, and the division branch computes 0/0. *)
Example zero_over_zero :
  (P_s Lit.f0 Lit.f0 <? P_n Lit.f0 Lit.f0 Lit.f0 Lit.f0
                        * CN0_SNV_NSR_MIN_MULTIPLIER)%f32 = false
  /\ nsr Lit.f0 Lit.f0 Lit.f0 Lit.f0 = F32.nan.
Proof. split; vm_compute; reflexivity. Qed.

(** C6, as the code has it: for every constant [c] in the middle range
    (2^-51 <= |c| < 2^62), with I = c and Q = c on every update, from any
    state (fresh from init or not), the first update stores the pair
    (|c|, |c|) and every later update has P_tot = 2·P_s, hence
    P_n = P_s, and returns and stores one and the same value,
    log_bw − 10·log10f(nsr) for the ratio the update computes from four
    equal magnitudes. *)
Theorem equal_inputs_total_power (log10f : F32.t -> F32.t)
  (s : cn0_est_state_t) (c : F32.t) (k : nat) :
  mid_range c = true ->
  let m := F32.fabsf c in
  let v := (log_bw s - Lit.f10 * log10f (nsr m m m m))%f32 in
  (P_tot m m m m = (Lit.f2 * P_s m m)%f32 /\ P_n m m m m = P_s m m)
  /\ cn0_run log10f s (repeat (c, c) (S (S k))) =
       ({| log_bw := log_bw s; I_prev_abs := m; Q_prev_abs := m; cn0 := v |},
        snd (cn0_est_snv_update log10f s c c) :: repeat v (S k)).
Proof.
  intros Hc m v.
  destruct (equal_magnitudes_ratio c Hc) as [_ [Htot [Hn _]]].
  fold m in Htot, Hn.
  split; [split; assumption |].
  apply (run_constant_inputs_any log10f c c k s).
Qed.

Lemma equal_inputs_total_power_witness :
  let s := cn0_est_snv_init log10f_table Lit.f1 Val.f60 Val.f1000 Lit.f1 in
  let v := (log_bw s
            - Lit.f10 * log10f_table (nsr Lit.f1 Lit.f1 Lit.f1 Lit.f1))%f32 in
  (P_tot Lit.f1 Lit.f1 Lit.f1 Lit.f1 = (Lit.f2 * P_s Lit.f1 Lit.f1)%f32
   /\ P_n Lit.f1 Lit.f1 Lit.f1 Lit.f1 = P_s Lit.f1 Lit.f1)
  /\ cn0_run log10f_table s (repeat (Lit.f1, Lit.f1) 4) =
       ({| log_bw := log_bw s; I_prev_abs := Lit.f1; Q_prev_abs := Lit.f1;
           cn0 := v |},
        snd (cn0_est_snv_update log10f_table s Lit.f1 Lit.f1) :: repeat v 3).
Proof.
  exact (equal_inputs_total_power log10f_table
           (cn0_est_snv_init log10f_table Lit.f1 Val.f60 Val.f1000 Lit.f1)
           Lit.f1 2 eq_refl).
Defined.

(** C6, as the claim has it, fails: at c = 1, with the stored pair (1, 1)
    and I = Q = 1, P_s = 1 and P_tot = 2: the total power counts both
    channels and is not P_s. *)
Lemma equal_inputs_total_is_not_signal :
  let s := {| log_bw := Val.fm30; I_prev_abs := Lit.f1;
              Q_prev_abs := Lit.f1; cn0 := Lit.f0 |} in
  let I_abs := F32.fabsf Lit.f1 in
  let Q_abs := F32.fabsf Lit.f1 in
  first_iteration s = false
  /\ P_s I_abs (I_prev_abs s) = Lit.f1
  /\ P_tot I_abs Q_abs (I_prev_abs s) (Q_prev_abs s) = Lit.f2
  /\ P_tot I_abs Q_abs (I_prev_abs s) (Q_prev_abs s) <> P_s I_abs (I_prev_abs s).
Proof.
  cbv zeta. repeat split; try (vm_compute; reflexivity);
    vm_compute; discriminate.
Qed.

(** C7: with [bw = 1], [f_s = 1000], [f_i = 1] the initialised [log_bw] is
    -30, and with I = 1, Q = 0 on every update the first call returns the
    initial value and the second returns -30 exactly (P_s = P_tot = 1,
    nsr = 1).  [log10f] enters at two arguments: at 1, where it is 0, and
    at the [float] quotient 1/1000, where it rounds to -3. *)
Theorem literal_example (log10f : F32.t -> F32.t) (cn0_0 : F32.t) :
  log10f Lit.f1 = Lit.f0 ->
  log10f Val.f0_001 = Val.fm3 ->
  let s0 := cn0_est_snv_init log10f Lit.f1 cn0_0 Val.f1000 Lit.f1 in
  log_bw s0 = Val.fm30
  /\ nsr (F32.fabsf Lit.f1) (F32.fabsf Lit.f0) (F32.fabsf Lit.f1) (F32.fabsf Lit.f0)
     = Lit.f1
  /\ snd (cn0_run log10f s0 [(Lit.f1, Lit.f0); (Lit.f1, Lit.f0)])
     = [cn0_0; Val.fm30]
  /\ cn0 (fst (cn0_run log10f s0 [(Lit.f1, Lit.f0); (Lit.f1, Lit.f0)]))
     = Val.fm30.
Proof.
  intros H1 H3 s0.
  assert (Hbw : log_bw s0 = Val.fm30).
  { unfold s0, cn0_est_snv_init; cbn [log_bw].
    change (Lit.f1 * Lit.f1 / Val.f1000)%f32 with Val.f0_001.
    rewrite H3. vm_compute. reflexivity. }
  assert (Hnsr : nsr (F32.fabsf Lit.f1) (F32.fabsf Lit.f0)
                     (F32.fabsf Lit.f1) (F32.fabsf Lit.f0) = Lit.f1).
  { vm_compute. reflexivity. }
  split; [exact Hbw |]. split; [exact Hnsr |].
  cbn [cn0_run].
  rewrite (update_first log10f s0 Lit.f1 Lit.f0
             (init_first_iteration log10f Lit.f1 cn0_0 Val.f1000 Lit.f1)).
  rewrite update_later by reflexivity.
  cbv zeta. cbn [log_bw I_prev_abs Q_prev_abs cn0 fst snd].
  rewrite Hnsr, H1, Hbw.
  split; vm_compute; reflexivity.
Qed.

Lemma literal_example_witness :
  let s0 := cn0_est_snv_init log10f_table Lit.f1 Val.f60 Val.f1000 Lit.f1 in
  log_bw s0 = Val.fm30
  /\ nsr (F32.fabsf Lit.f1) (F32.fabsf Lit.f0) (F32.fabsf Lit.f1) (F32.fabsf Lit.f0)
     = Lit.f1
  /\ snd (cn0_run log10f_table s0 [(Lit.f1, Lit.f0); (Lit.f1, Lit.f0)])
     = [Val.f60; Val.fm30]
  /\ cn0 (fst (cn0_run log10f_table s0 [(Lit.f1, Lit.f0); (Lit.f1, Lit.f0)]))
     = Val.fm30.
Proof.
  apply (literal_example log10f_table Val.f60); vm_compute; reflexivity.
Defined.

(** ** The filter: zero input *)

Lemma round_aux_abs (prec emax : Z) (s : bool) (m e : Z) (l : location) :
  SFabs (binary_round_aux prec emax s m e l)
  = binary_round_aux prec emax false m e l.
Proof.
  unfold binary_round_aux.
  destruct (shr_fexp prec emax m e l) as [mrs' e'].
  destruct (shr_fexp prec emax _ e' loc_Exact) as [mrs'' e''].
  destruct (shr_m mrs'') as [| p | p]; try reflexivity.
  destruct (e'' <=? emax - prec); reflexivity.
Qed.

(** The magnitude of a product is the product of the magnitudes. *)
Lemma fabsf_mul (x y : F32.t) :
  F32.fabsf (x * y)%f32 = (F32.fabsf x * F32.fabsf y)%f32.
Proof.
  unfold F32.fabsf, F32.mul.
  destruct x as [sx | sx | | sx mx ex], y as [sy | sy | | sy my ey];
    try reflexivity.
  cbn [SFmul SFabs]. apply round_aux_abs.
Qed.

(** [b * 0.f] is a zero, or not a number when [b] is infinite or a NaN. *)
Lemma mul_zero_cases (x : F32.t) :
  (exists s, (x * Lit.f0)%f32 = S754_zero s) \/ (x * Lit.f0)%f32 = F32.nan.
Proof.
  destruct x as [s | s | | s m e]; cbn; eauto.
Qed.

Lemma mul_nan_r (x : F32.t) : (x * F32.nan)%f32 = F32.nan.
Proof. destruct x; reflexivity. Qed.

Lemma div_nan_r (x : F32.t) : (x / F32.nan)%f32 = F32.nan.
Proof. destruct x; reflexivity. Qed.

Lemma sub_nan_r (x : F32.t) : (x - F32.nan)%f32 = F32.nan.
Proof. destruct x; reflexivity. Qed.

(** With the scaled input and the delayed term both the zero [z], the
    difference equation leaves [-(p)] for the feedback product [p]. *)
Lemma zero_terms_leave_feedback (s : bool) (p : F32.t) :
  let y := (S754_zero s + S754_zero s - p)%f32 in
  F32.fabsf y = F32.fabsf p
  /\ (y = (- p)%f32 \/ (F32.is_zero y = true /\ F32.is_zero p = true)).
Proof.
  destruct s, p as [sp | sp | | sp mp ep]; cbn; try destruct sp; cbn; auto.
Qed.

Lemma lp1_run_cons (f : lp1_filter_t) (v : F32.t) (rest : list F32.t) :
  lp1_run f (v :: rest) =
    (fst (lp1_run (fst (lp1_filter_update f v)) rest),
     snd (lp1_filter_update f v)
       :: snd (lp1_run (fst (lp1_filter_update f v)) rest)).
Proof.
  cbn [lp1_run].
  destruct (lp1_filter_update f v) as [f1 y]; cbn [fst snd].
  destruct (lp1_run f1 rest) as [f2 ys]. reflexivity.
Qed.

(** Two zero-input updates in a row: the second returns the negated
    feedback product of the first one's output. *)
Lemma zero_update_twice (g : lp1_filter_t) :
  let f := fst (lp1_filter_update g Lit.f0) in
  decay_step (a g) (snd (lp1_filter_update g Lit.f0))
    (snd (lp1_filter_update f Lit.f0)).
Proof.
  unfold decay_step. rewrite <- fabsf_mul.
  unfold lp1_filter_update; cbn [fst snd a b xn yn].
  destruct (mul_zero_cases (b g)) as [[s Hz] | Hn].
  - rewrite Hz.
    apply (zero_terms_leave_feedback s
             (a g * (S754_zero s + xn g - a g * yn g))%f32).
  - rewrite Hn. cbn. rewrite mul_nan_r. cbn. auto.
Qed.

Lemma zero_run_decays (n : nat) (g : lp1_filter_t) :
  decays (a g) (snd (lp1_run g (repeat Lit.f0 n))).
Proof.
  revert g. induction n as [| n IH]; intros g; [exact I |].
  change (repeat Lit.f0 (S n)) with (Lit.f0 :: repeat Lit.f0 n).
  rewrite lp1_run_cons; cbn [snd].
  specialize (IH (fst (lp1_filter_update g Lit.f0))).
  destruct n as [| n]; [exact I |].
  change (repeat Lit.f0 (S n)) with (Lit.f0 :: repeat Lit.f0 n) in *.
  rewrite lp1_run_cons in *; cbn [snd] in *.
  split; [apply zero_update_twice | exact IH].
Qed.

(** A zero less the feedback product [p] is [-p]. *)
Lemma zero_minus_feedback (s : bool) (p : F32.t) :
  let y := (S754_zero s - p)%f32 in
  F32.fabsf y = F32.fabsf p
  /\ (y = (- p)%f32 \/ (F32.is_zero y = true /\ F32.is_zero p = true)).
Proof.
  destruct s, p as [sp | sp | | sp mp ep]; cbn; try destruct sp; cbn; auto.
Qed.

(** One zero-input update of a filter whose delayed term is flushed, tied
    to the state: the returned value is the negated feedback of [yn]. *)
Lemma flushed_step (g : lp1_filter_t) :
  is_finite (b g) = true -> F32.is_zero (xn g) = true ->
  decay_step (a g) (yn g) (snd (lp1_filter_update g Lit.f0)).
Proof.
  intros Hb Hx. unfold decay_step. rewrite <- fabsf_mul.
  unfold lp1_filter_update; cbn [fst snd].
  assert (Hz : exists z, (b g * Lit.f0 + xn g)%f32 = S754_zero z).
  { destruct (b g) as [sb | sb | | sb mb eb]; try discriminate;
      destruct (xn g) as [sx | sx | | sx mx ex]; try discriminate;
      destruct sb, sx; cbn; eauto. }
  destruct Hz as [z Hz]. rewrite Hz.
  apply (zero_minus_feedback z (a g * yn g)%f32).
Qed.

Lemma flushed_stays (g : lp1_filter_t) :
  is_finite (b g) = true ->
  F32.is_zero (xn (fst (lp1_filter_update g Lit.f0))) = true.
Proof.
  unfold lp1_filter_update; cbn [fst xn].
  destruct (b g) as [sb | sb | | sb mb eb]; try discriminate; reflexivity.
Qed.

(** A chain of zero-input updates from a state, the state's own output
    first. *)
Lemma decays_chain (P : lp1_filter_t -> Prop) :
  (forall h, P h -> decay_step (a h) (yn h) (snd (lp1_filter_update h Lit.f0))) ->
  (forall h, P h -> P (fst (lp1_filter_update h Lit.f0))) ->
  forall (n : nat) (h : lp1_filter_t), P h ->
  decays (a h) (yn h :: snd (lp1_run h (repeat Lit.f0 n))).
Proof.
  intros Hstep Hkeep. induction n as [| n IH]; intros h HP; [exact I |].
  change (repeat Lit.f0 (S n)) with (Lit.f0 :: repeat Lit.f0 n).
  rewrite lp1_run_cons; cbn [snd].
  split; [apply Hstep; exact HP |].
  exact (IH _ (Hkeep h HP)).
Qed.

Lemma zero_updates_coefficients (k : nat) (f : lp1_filter_t) :
  a (zero_updates k f) = a f /\ b (zero_updates k f) = b f.
Proof.
  induction k as [| k IH]; [split; reflexivity |].
  change (zero_updates (S k) f)
    with (fst (lp1_filter_update (zero_updates k f) Lit.f0)).
  exact IH.
Qed.

(** C8: each zero-input update returns -a times the state's previous
    output once the delayed term [xn] is flushed.  For a filter [g] with a
    finite [b] whose [xn] is a zero, an update with value 0 returns
    [-(a * yn)] for the [yn] the state holds, of magnitude [|a| * |yn|] in
    single precision (when the product is a zero the output is a zero, of
    either sign); it stores that output in [yn] and leaves [xn] a zero, so
    that along any run of zero inputs the outputs, the state's [yn] first,
    decay with ratio [|a|].  From any state [f] whatever its [b], after one
    update with a value [v] and at least one update with value 0 the same
    holds of every further zero-input update. *)
Theorem zero_input_decay (g f : lp1_filter_t) (v : F32.t) (k n : nat) :
  is_finite (b g) = true -> F32.is_zero (xn g) = true ->
  (decay_step (a g) (yn g) (snd (lp1_filter_update g Lit.f0))
   /\ yn (fst (lp1_filter_update g Lit.f0)) = snd (lp1_filter_update g Lit.f0)
   /\ F32.is_zero (xn (fst (lp1_filter_update g Lit.f0))) = true
   /\ decays (a g) (yn g :: snd (lp1_run g (repeat Lit.f0 n))))
  /\ (let h := zero_updates (S k) (fst (lp1_filter_update f v)) in
      xn h = (b f * Lit.f0)%f32
      /\ decay_step (a f) (yn h) (snd (lp1_filter_update h Lit.f0))
      /\ decays (a f) (yn h :: snd (lp1_run h (repeat Lit.f0 n)))
      /\ decays (a f) (tl (snd (lp1_run f (v :: repeat Lit.f0 n))))).
Proof.
  intros Hb Hx. split.
  - split; [apply flushed_step; assumption |].
    split; [reflexivity |].
    split; [apply flushed_stays; exact Hb |].
    apply (decays_chain
             (fun h => is_finite (b h) = true /\ F32.is_zero (xn h) = true)).
    + intros h [H1 H2]. apply flushed_step; assumption.
    + intros h [H1 H2]. split; [exact H1 | apply flushed_stays; exact H1].
    + split; assumption.
  - intros h.
    set (h0 := zero_updates k (fst (lp1_filter_update f v))).
    assert (Eh : h = fst (lp1_filter_update h0 Lit.f0)) by reflexivity.
    destruct (zero_updates_coefficients k (fst (lp1_filter_update f v)))
      as [Ha0 Hb0]. fold h0 in Ha0, Hb0.
    change (a (fst (lp1_filter_update f v))) with (a f) in Ha0.
    change (b (fst (lp1_filter_update f v))) with (b f) in Hb0.
    split; [rewrite Eh; unfold lp1_filter_update; cbn [fst xn];
            rewrite Hb0; reflexivity |].
    split.
    { rewrite <- Ha0, Eh. exact (zero_update_twice h0). }
    split.
    { rewrite <- Ha0.
      change (a h0) with (a h).
      apply (decays_chain
               (fun x => exists x0, x = fst (lp1_filter_update x0 Lit.f0))).
      - intros x [x0 ->]. exact (zero_update_twice x0).
      - intros x _. exists x. reflexivity.
      - exists h0. exact Eh. }
    rewrite lp1_run_cons; cbn [snd tl].
    apply (zero_run_decays n (fst (lp1_filter_update f v))).
Qed.

Lemma zero_input_decay_witness :
  let g := fst (lp1_filter_update
             (fst (lp1_filter_update
                {| a := (- Lit.f0_5)%f32; b := Lit.f0_5; xn := Lit.f1;
                   yn := Lit.f3 |} Lit.f2)) Lit.f0) in
  let f := {| a := (- Lit.f0_5)%f32; b := Lit.f0_5; xn := Lit.f1;
              yn := Lit.f3 |} in
  (decay_step (a g) (yn g) (snd (lp1_filter_update g Lit.f0))
   /\ yn (fst (lp1_filter_update g Lit.f0)) = snd (lp1_filter_update g Lit.f0)
   /\ F32.is_zero (xn (fst (lp1_filter_update g Lit.f0))) = true
   /\ decays (a g) (yn g :: snd (lp1_run g (repeat Lit.f0 3))))
  /\ (let h := zero_updates 2 (fst (lp1_filter_update f Lit.f2)) in
      xn h = (b f * Lit.f0)%f32
      /\ decay_step (a f) (yn h) (snd (lp1_filter_update h Lit.f0))
      /\ decays (a f) (yn h :: snd (lp1_run h (repeat Lit.f0 3)))
      /\ decays (a f) (tl (snd (lp1_run f (Lit.f2 :: repeat Lit.f0 3))))).
Proof.
  exact (zero_input_decay
           (fst (lp1_filter_update
              (fst (lp1_filter_update
                 {| a := (- Lit.f0_5)%f32; b := Lit.f0_5; xn := Lit.f1;
                    yn := Lit.f3 |} Lit.f2)) Lit.f0))
           {| a := (- Lit.f0_5)%f32; b := Lit.f0_5; xn := Lit.f1;
              yn := Lit.f3 |}
           Lit.f2 1 3 eq_refl eq_refl).
Defined.

(** ** The filter: coefficient derivation *)

Lemma all_from_spec (f : positive -> bool) (n : nat) (start m : positive) :
  all_from f start n = true ->
  (start <= m)%positive -> (Z.pos m < Z.pos start + Z.of_nat n) ->
  f m = true.
Proof.
  revert start. induction n as [| n IH]; intros start Hall Hlo Hhi.
  - lia.
  - cbn [all_from] in Hall. apply andb_true_iff in Hall as [Hs Hrest].
    destruct (Pos.eq_dec start m) as [-> | Hne]; [exact Hs |].
    apply (IH (Pos.succ start)); [exact Hrest | lia | lia].
Qed.

Lemma is_nan_true (x : F32.t) : F32.is_nan x = true -> x = F32.nan.
Proof. destruct x; try discriminate. reflexivity. Qed.

(** For every [Ap] that [powf_near] admits, the argument of [sqrtf] is
    negative and its square root is not a number. *)
Lemma sqrtf_of_negative (powf : F32.t -> F32.t -> F32.t) :
  powf_near powf ->
  (sqrtf_arg (lp1_Ap powf) <? Lit.f0)%f32 = true
  /\ F32.sqrtf (sqrtf_arg (lp1_Ap powf)) = F32.nan.
Proof.
  intros [m [Hm [Hlo Hhi]]]. rewrite Hm.
  assert (Hall : all_from sqrtf_arg_fails (Val.Ap_nearest - 8) 17 = true)
    by (vm_compute; reflexivity).
  assert (Hf : sqrtf_arg_fails m = true).
  { apply (all_from_spec _ _ _ m Hall); [exact Hlo |].
    unfold Val.Ap_nearest in *. lia. }
  unfold sqrtf_arg_fails in Hf. apply andb_true_iff in Hf as [Hneg Hnan].
  split; [exact Hneg | apply is_nan_true; exact Hnan].
Qed.

(** Once [sqrtf] has returned a NaN, so are [Oc], [tmp], the denominator and
    both coefficients, whatever [Op] and [Ts] are. *)
Lemma coefficients_nan (Op Ap Ts : F32.t) :
  F32.sqrtf (sqrtf_arg Ap) = F32.nan ->
  denom Op Ap Ts = F32.nan
  /\ coeff_a Op Ap Ts = F32.nan /\ coeff_b Op Ap Ts = F32.nan.
Proof.
  intros H.
  assert (Hd : denom Op Ap Ts = F32.nan).
  { unfold denom, tmp, Oc. rewrite H, div_nan_r. cbn. reflexivity. }
  unfold coeff_a, coeff_b. rewrite Hd.
  split; [reflexivity |]. split; apply div_nan_r.
Qed.

Section FilterInit.
Variables (tanf : F32.t -> F32.t) (powf : F32.t -> F32.t -> F32.t).

(** C5 at the code: for every [cutoff_freq] and [loop_freq], with
    [Ap = powf(10.f, -3.f/20.f)] near 0.708 the argument [1.f/(Ap*Ap-1.f)]
    of [sqrtf] is negative (about -2.0), [sqrtf] returns a NaN, and the
    denominator [2.f-tmp] and both coefficients are NaN. *)
Theorem sqrtf_argument_negative (initial cutoff_freq loop_freq : F32.t) :
  powf_near powf ->
  let Ap := lp1_Ap powf in
  let f := lp1_filter_init tanf powf initial cutoff_freq loop_freq in
  (sqrtf_arg Ap <? Lit.f0)%f32 = true
  /\ F32.leb Lit.f0 (sqrtf_arg Ap) = false
  /\ F32.sqrtf (sqrtf_arg Ap) = F32.nan
  /\ denom (lp1_Op tanf cutoff_freq loop_freq) Ap (lp1_Ts loop_freq) = F32.nan
  /\ a f = F32.nan /\ b f = F32.nan.
Proof.
  intros Hp Ap f. destruct (sqrtf_of_negative powf Hp) as [Hneg Hnan].
  destruct (coefficients_nan (lp1_Op tanf cutoff_freq loop_freq) Ap
              (lp1_Ts loop_freq) Hnan) as [Hd [Ha Hb]].
  split; [exact Hneg |].
  split.
  { fold Ap in Hneg. destruct (sqrtf_arg Ap) as [s | s | | s m e];
      try discriminate; destruct s; try discriminate; reflexivity. }
  split; [exact Hnan |]. split; [exact Hd |].
  split; [exact Ha | exact Hb].
Qed.

(** C2 at the code: for every [initial], [cutoff_freq] and [loop_freq],
    the update with value [initial] right after [lp1_filter_init] returns
    a NaN, because both coefficients are NaN. *)
Theorem update_after_init_is_nan (initial cutoff_freq loop_freq : F32.t) :
  powf_near powf ->
  let f := lp1_filter_init tanf powf initial cutoff_freq loop_freq in
  snd (lp1_filter_update f initial) = F32.nan
  /\ yn (fst (lp1_filter_update f initial)) = F32.nan.
Proof.
  intros Hp f. destruct (sqrtf_of_negative powf Hp) as [_ Hnan].
  destruct (coefficients_nan (lp1_Op tanf cutoff_freq loop_freq) (lp1_Ap powf)
              (lp1_Ts loop_freq) Hnan) as [_ [Ha Hb]].
  unfold lp1_filter_update, f, lp1_filter_init; cbn [fst snd a b xn yn].
  rewrite Hb. cbn. split; reflexivity.
Qed.
End FilterInit.

Lemma powf_table_near : powf_near powf_table.
Proof.
  exists Val.Ap_nearest. split; [reflexivity |].
  unfold Val.Ap_nearest. lia.
Defined.

Lemma sqrtf_argument_negative_witness :
  let Ap := lp1_Ap powf_table in
  let f := lp1_filter_init tanf_table powf_table Lit.f1 Lit.f1 Val.f1000 in
  (sqrtf_arg Ap <? Lit.f0)%f32 = true
  /\ F32.leb Lit.f0 (sqrtf_arg Ap) = false
  /\ F32.sqrtf (sqrtf_arg Ap) = F32.nan
  /\ denom (lp1_Op tanf_table Lit.f1 Val.f1000) Ap (lp1_Ts Val.f1000) = F32.nan
  /\ a f = F32.nan /\ b f = F32.nan.
Proof.
  exact (sqrtf_argument_negative tanf_table powf_table Lit.f1 Lit.f1 Val.f1000
           powf_table_near).
Defined.

Lemma update_after_init_is_nan_witness :
  let f := lp1_filter_init tanf_table powf_table Lit.f1 Lit.f1 Val.f1000 in
  snd (lp1_filter_update f Lit.f1) = F32.nan
  /\ yn (fst (lp1_filter_update f Lit.f1)) = F32.nan.
Proof.
  exact (update_after_init_is_nan tanf_table powf_table Lit.f1 Lit.f1 Val.f1000
           powf_table_near).
Defined.

(** * Further properties of the estimator *)

Section EstimatorRuns.
Variable log10f : F32.t -> F32.t.

Lemma cn0_run_cons (s : cn0_est_state_t) (p : F32.t * F32.t)
  (rest : list (F32.t * F32.t)) :
  cn0_run log10f s (p :: rest) =
    (fst (cn0_run log10f (fst (cn0_est_snv_update log10f s (fst p) (snd p))) rest),
     snd (cn0_est_snv_update log10f s (fst p) (snd p))
       :: snd (cn0_run log10f
                 (fst (cn0_est_snv_update log10f s (fst p) (snd p))) rest)).
Proof.
  destruct p as [i q]. cbn [cn0_run fst snd].
  destruct (cn0_est_snv_update log10f s i q) as [s1 r]; cbn [fst snd].
  destruct (cn0_run log10f s1 rest) as [s2 rs]. reflexivity.
Qed.

Lemma update_log_bw (s : cn0_est_state_t) (I Q : F32.t) :
  log_bw (fst (cn0_est_snv_update log10f s I Q)) = log_bw s.
Proof.
  destruct (first_iteration s) eqn:F.
  - rewrite (update_first log10f s I Q F). reflexivity.
  - rewrite (update_later log10f s I Q F). reflexivity.
Qed.

Lemma update_not_first (s : cn0_est_state_t) (I Q : F32.t) :
  first_iteration (fst (cn0_est_snv_update log10f s I Q)) = false.
Proof.
  unfold first_iteration.
  rewrite (proj1 (update_prev_fields log10f s I Q)). apply fabsf_not_negative.
Qed.

(** X1: no update of the estimator changes [log_bw]: after any run of
    updates, from any state, the field is the one init computed. *)
Theorem run_keeps_log_bw (s : cn0_est_state_t) (iq : list (F32.t * F32.t)) :
  log_bw (fst (cn0_run log10f s iq)) = log_bw s.
Proof.
  revert s. induction iq as [| p rest IH]; intros s; [reflexivity |].
  rewrite cn0_run_cons; cbn [fst]. rewrite IH. apply update_log_bw.
Qed.

Lemma update_magnitudes (s : cn0_est_state_t) (I Q : F32.t) :
  cn0_est_snv_update log10f s (F32.fabsf I) (F32.fabsf Q)
  = cn0_est_snv_update log10f s I Q.
Proof.
  unfold cn0_est_snv_update. rewrite !fabsf_idem. reflexivity.
Qed.

Lemma run_magnitudes (s : cn0_est_state_t) (iq : list (F32.t * F32.t)) :
  cn0_run log10f s (magnitudes iq) = cn0_run log10f s iq.
Proof.
  revert s. induction iq as [| [i q] rest IH]; intros s; [reflexivity |].
  change (magnitudes ((i, q) :: rest))
    with ((F32.fabsf i, F32.fabsf q) :: magnitudes rest).
  rewrite !cn0_run_cons; cbn [fst snd].
  rewrite update_magnitudes, IH. reflexivity.
Qed.

(** X2: the estimator sees magnitudes only: two runs of inputs that agree
    up to the signs of their I and Q components give the same outputs and
    the same final state, from any state. *)
Theorem run_ignores_signs (s : cn0_est_state_t)
  (iq1 iq2 : list (F32.t * F32.t)) :
  magnitudes iq1 = magnitudes iq2 ->
  cn0_run log10f s iq1 = cn0_run log10f s iq2.
Proof.
  intros H. rewrite <- (run_magnitudes s iq1), <- (run_magnitudes s iq2), H.
  reflexivity.
Qed.

(** The outputs of a run from a state that already stores the magnitudes
    of the input [p0]. *)
Lemma run_window (rest : list (F32.t * F32.t)) (p0 : F32.t * F32.t)
  (s : cn0_est_state_t) :
  I_prev_abs s = F32.fabsf (fst p0) -> Q_prev_abs s = F32.fabsf (snd p0) ->
  snd (cn0_run log10f s rest) = window_values log10f (log_bw s) (p0 :: rest).
Proof.
  revert p0 s. induction rest as [| cur rest IH]; intros p0 s HI HQ;
    [reflexivity |].
  rewrite cn0_run_cons; cbn [snd].
  change (window_values log10f (log_bw s) (p0 :: cur :: rest))
    with (window_value log10f (log_bw s) p0 cur
            :: window_values log10f (log_bw s) (cur :: rest)).
  assert (F : first_iteration s = false).
  { unfold first_iteration. rewrite HI. apply fabsf_not_negative. }
  f_equal.
  - rewrite (update_later log10f s (fst cur) (snd cur) F). cbv zeta.
    cbn [snd]. rewrite HI, HQ. reflexivity.
  - rewrite <- (update_log_bw s (fst cur) (snd cur)).
    apply IH; apply update_prev_fields.
Qed.

(** X3: the estimator has a memory of two samples and never feeds [cn0]
    back: in any run, from any state, every output after the first is
    log_bw − 10·log10f(nsr) for the magnitudes of the current and the
    previous input alone; only the first output depends on the state the
    run started from.  After [cn0_est_snv_init] that first output is the
    initial value. *)
Theorem run_outputs_window (s : cn0_est_state_t) (p : F32.t * F32.t)
  (rest : list (F32.t * F32.t)) (bw cn0_0 f_s f_i : F32.t) :
  snd (cn0_run log10f s (p :: rest))
  = snd (cn0_est_snv_update log10f s (fst p) (snd p))
      :: window_values log10f (log_bw s) (p :: rest)
  /\ snd (cn0_run log10f (cn0_est_snv_init log10f bw cn0_0 f_s f_i) (p :: rest))
     = cn0_0 :: window_values log10f
                  (log_bw (cn0_est_snv_init log10f bw cn0_0 f_s f_i)) (p :: rest).
Proof.
  assert (H : forall s0,
    snd (cn0_run log10f s0 (p :: rest))
    = snd (cn0_est_snv_update log10f s0 (fst p) (snd p))
        :: window_values log10f (log_bw s0) (p :: rest)).
  { intros s0. rewrite cn0_run_cons; cbn [snd]. f_equal.
    rewrite <- (update_log_bw s0 (fst p) (snd p)).
    apply run_window; apply update_prev_fields. }
  split; [apply H |].
  rewrite H.
  rewrite (update_first log10f _ (fst p) (snd p)
             (init_first_iteration log10f bw cn0_0 f_s f_i)).
  reflexivity.
Qed.
End EstimatorRuns.

Lemma run_ignores_signs_witness :
  cn0_run log10f_table
    (cn0_est_snv_init log10f_table Lit.f1 Val.f60 Val.f1000 Lit.f1)
    [(Lit.f1, (- Lit.f2)%f32); ((- Lit.f3)%f32, Lit.f1)]
  = cn0_run log10f_table
      (cn0_est_snv_init log10f_table Lit.f1 Val.f60 Val.f1000 Lit.f1)
      [((- Lit.f1)%f32, Lit.f2); (Lit.f3, (- Lit.f1)%f32)].
Proof.
  apply (run_ignores_signs log10f_table). reflexivity.
Defined.

Lemma in_phase_only_fixed_value_witness :
  let s := cn0_est_snv_init log10f_table Lit.f1 Val.f60 Val.f1000 Lit.f1 in
  cn0_run log10f_table s (repeat (Lit.f3, Lit.f0) 4) =
    ({| log_bw := log_bw s; I_prev_abs := F32.fabsf Lit.f3;
        Q_prev_abs := Lit.f0; cn0 := log_bw s |},
     snd (cn0_est_snv_update log10f_table s Lit.f3 Lit.f0)
       :: repeat (log_bw s) 3).
Proof.
  exact (in_phase_only_fixed_value log10f_table
           (cn0_est_snv_init log10f_table Lit.f1 Val.f60 Val.f1000 Lit.f1)
           Lit.f3 2 eq_refl eq_refl).
Defined.

(** For every [c] in the middle range, the magnitudes [(0, |c|)] twice give
    P_s = 0 and P_n = P_tot = c², and the clamp sets nsr to 1e6. *)
Lemma quadrature_only_ratio (c : F32.t) :
  mid_range c = true ->
  let m := F32.fabsf c in
  P_s Lit.f0 Lit.f0 = Lit.f0
  /\ P_tot Lit.f0 m Lit.f0 m = (m * m)%f32
  /\ nsr Lit.f0 m Lit.f0 m = CN0_SNV_NSR_MIN.
Proof.
  intros H m. destruct (square_normal c H) as [mq [eq [Hq [Hd He]]]].
  fold m in Hq.
  pose proof (mantissa_bounds mq Hd) as Hm.
  change (2 ^ 23) with 8388608 in Hm. change (2 ^ 24) with 16777216 in Hm.
  assert (HPs : P_s Lit.f0 Lit.f0 = Lit.f0) by reflexivity.
  assert (HPt : P_tot Lit.f0 m Lit.f0 m = S754_finite false mq eq).
  { unfold P_tot. rewrite Hq.
    change (Lit.f0 * Lit.f0)%f32 with Lit.f0.
    change (S754_finite false mq eq + Lit.f0)%f32 with (S754_finite false mq eq).
    rewrite add_self by lia.
    change (S754_finite false mq (eq + 1) + Lit.f0)%f32
      with (S754_finite false mq (eq + 1)).
    rewrite mul_half by lia. f_equal. lia. }
  split; [exact HPs |]. split; [rewrite HPt, Hq; reflexivity |].
  unfold nsr, P_n. rewrite HPt, HPs.
  change (S754_finite false mq eq - Lit.f0)%f32 with (S754_finite false mq eq).
  unfold F32.mul at 1.
  unfold CN0_SNV_NSR_MIN_MULTIPLIER at 1. unfold F32.prec, F32.emax.
  cbn [SFmul xorb].
  assert (Hn : exists n, (n = 23 \/ n = 24)
                 /\ Zpos (digits2_pos (mq * 8796093)) = 24 + n).
  { destruct (Z_lt_le_dec (Zpos (mq * 8796093)) (2 ^ 47)) as [H' | H'];
      change (2 ^ 47) with 140737488355328 in H'.
    - exists 23. split; [left; reflexivity |].
      apply digits2_pos_unique; [| lia].
      change (2 ^ (24 + 23 - 1)) with 70368744177664.
      change (2 ^ (24 + 23)) with 140737488355328. lia.
    - exists 24. split; [right; reflexivity |].
      apply digits2_pos_unique; [| lia].
      change (2 ^ (24 + 24 - 1)) with 140737488355328.
      change (2 ^ (24 + 24)) with 281474976710656. lia. }
  destruct Hn as [n [Hn Hdn]].
  destruct (round_result_normal false (mq * 8796093) (eq + -43) n Hdn)
    as [m' [e' [Hr _]]]; try (destruct Hn; lia).
  rewrite Hr. reflexivity.
Qed.

Lemma add_nan_r (x : F32.t) : (x + F32.nan)%f32 = F32.nan.
Proof. destruct x; reflexivity. Qed.

Lemma ltb_nan_r (x : F32.t) : (x <? F32.nan)%f32 = false.
Proof. destruct x; reflexivity. Qed.

Lemma nsr_of_nan_signal (I_abs Q_abs I_prev Q_prev : F32.t) :
  P_s I_abs I_prev = F32.nan -> nsr I_abs Q_abs I_prev Q_prev = F32.nan.
Proof.
  intros H. unfold nsr, P_n. rewrite H.
  change (F32.nan <? ?x)%f32 with false. apply div_nan_r.
Qed.

Lemma nsr_of_nan_total (I_abs Q_abs I_prev Q_prev : F32.t) :
  P_tot I_abs Q_abs I_prev Q_prev = F32.nan ->
  nsr I_abs Q_abs I_prev Q_prev = F32.nan.
Proof.
  intros H. unfold nsr, P_n. rewrite H.
  change (F32.nan - ?x)%f32 with F32.nan.
  change (F32.nan * ?x)%f32 with F32.nan.
  rewrite ltb_nan_r. reflexivity.
Qed.

(** The ratio is a NaN as soon as one of the four magnitudes is. *)
Lemma nsr_of_nan (I_abs Q_abs I_prev Q_prev : F32.t) :
  F32.is_nan I_abs || F32.is_nan Q_abs || F32.is_nan I_prev
  || F32.is_nan Q_prev = true ->
  nsr I_abs Q_abs I_prev Q_prev = F32.nan.
Proof.
  intros H. repeat (apply orb_true_iff in H; destruct H as [H | H]);
    apply is_nan_true in H; subst.
  - apply nsr_of_nan_signal. unfold P_s. cbn. reflexivity.
  - apply nsr_of_nan_total. unfold P_tot.
    change (F32.nan * F32.nan)%f32 with F32.nan.
    rewrite add_nan_r. cbn. reflexivity.
  - apply nsr_of_nan_signal. unfold P_s. rewrite add_nan_r. cbn. reflexivity.
  - apply nsr_of_nan_total. unfold P_tot. cbn. reflexivity.
Qed.

Section EstimatorEdges.
Variable log10f : F32.t -> F32.t.

(** X4: a pure quadrature signal is reported at the floor: for every [c]
    in the middle range, with I = 0 and Q = c on every update, from any
    state, every update after the first has P_s = 0 < P_n·1e-6, takes the
    clamp branch and returns and stores log_bw − 60 exactly, for a
    [log10f] with log10f(1e6) = 6. *)
Theorem quadrature_only_floor (s : cn0_est_state_t) (c : F32.t) (k : nat) :
  log10f CN0_SNV_NSR_MIN = Val.f6 ->
  mid_range c = true ->
  cn0_run log10f s (repeat (Lit.f0, c) (S (S k))) =
    ({| log_bw := log_bw s; I_prev_abs := Lit.f0;
        Q_prev_abs := F32.fabsf c; cn0 := (log_bw s - Val.f60)%f32 |},
     snd (cn0_est_snv_update log10f s Lit.f0 c)
       :: repeat (log_bw s - Val.f60)%f32 (S k)).
Proof.
  intros H6 Hc.
  rewrite (run_constant_inputs_any log10f Lit.f0 c k s). cbv zeta.
  change (F32.fabsf Lit.f0) with Lit.f0.
  destruct (quadrature_only_ratio c Hc) as [_ [_ Hnsr]]. rewrite Hnsr, H6.
  reflexivity.
Qed.

(** X5: the clamp does not catch a NaN: past the bootstrap, when I, Q or
    one of the stored magnitudes is a NaN, the guard is false, the ratio
    handed to [log10f] is a NaN, and the update returns and stores a NaN,
    for a [log10f] that maps NaN to NaN. *)
Theorem nan_input_gives_nan (s : cn0_est_state_t) (I Q : F32.t) :
  log10f F32.nan = F32.nan ->
  first_iteration s = false ->
  F32.is_nan I || F32.is_nan Q || F32.is_nan (I_prev_abs s)
  || F32.is_nan (Q_prev_abs s) = true ->
  nsr (F32.fabsf I) (F32.fabsf Q) (I_prev_abs s) (Q_prev_abs s) = F32.nan
  /\ snd (cn0_est_snv_update log10f s I Q) = F32.nan
  /\ cn0 (fst (cn0_est_snv_update log10f s I Q)) = F32.nan.
Proof.
  intros Hlog Hs Hnan.
  assert (Hnsr : nsr (F32.fabsf I) (F32.fabsf Q) (I_prev_abs s) (Q_prev_abs s)
                 = F32.nan).
  { apply nsr_of_nan.
    replace (F32.is_nan (F32.fabsf I)) with (F32.is_nan I) by (destruct I; reflexivity).
    replace (F32.is_nan (F32.fabsf Q)) with (F32.is_nan Q) by (destruct Q; reflexivity).
    exact Hnan. }
  split; [exact Hnsr |].
  rewrite (update_later log10f s I Q Hs). cbv zeta. cbn [fst snd cn0].
  rewrite Hnsr, Hlog. change (Lit.f10 * F32.nan)%f32 with F32.nan.
  rewrite sub_nan_r. split; reflexivity.
Qed.

Lemma zero_pair_magnitudes (p : F32.t * F32.t) :
  zero_pair p = true ->
  F32.fabsf (fst p) = Lit.f0 /\ F32.fabsf (snd p) = Lit.f0.
Proof.
  unfold zero_pair. intros H. apply andb_true_iff in H as [H1 H2].
  split; apply fabsf_of_zero; assumption.
Qed.

Lemma zero_run_from_zero_pair (rest : list (F32.t * F32.t))
  (s : cn0_est_state_t) :
  log10f F32.nan = F32.nan ->
  I_prev_abs s = Lit.f0 -> Q_prev_abs s = Lit.f0 ->
  forallb zero_pair rest = true ->
  snd (cn0_run log10f s rest) = repeat F32.nan (length rest).
Proof.
  intros Hlog. revert s. induction rest as [| p rest IH]; intros s HI HQ Hz;
    [reflexivity |].
  cbn [forallb] in Hz. apply andb_true_iff in Hz as [Hp Hrest].
  destruct (zero_pair_magnitudes p Hp) as [Ha Hb].
  rewrite cn0_run_cons. cbn [snd length repeat]. f_equal.
  - rewrite update_later by (unfold first_iteration; rewrite HI; reflexivity).
    cbv zeta. cbn [snd]. rewrite Ha, Hb, HI, HQ.
    change (nsr Lit.f0 Lit.f0 Lit.f0 Lit.f0) with F32.nan.
    rewrite Hlog. change (Lit.f10 * F32.nan)%f32 with F32.nan.
    apply sub_nan_r.
  - apply IH; [| | exact Hrest].
    + rewrite (proj1 (update_prev_fields log10f s (fst p) (snd p))). exact Ha.
    + rewrite (proj2 (update_prev_fields log10f s (fst p) (snd p))). exact Hb.
Qed.

(** X6: an all-zero signal is reported as a NaN: in a run whose inputs
    are all zeros (of either sign), from any state, every update after the
    first finds P_s = P_n = 0, which the strict guard lets through to
    0/0, and returns a NaN, for a [log10f] that maps NaN to NaN. *)
Theorem zero_signal_gives_nan (s : cn0_est_state_t) (p : F32.t * F32.t)
  (rest : list (F32.t * F32.t)) :
  log10f F32.nan = F32.nan ->
  forallb zero_pair (p :: rest) = true ->
  snd (cn0_run log10f s (p :: rest))
  = snd (cn0_est_snv_update log10f s (fst p) (snd p))
      :: repeat F32.nan (length rest).
Proof.
  intros Hlog Hz. cbn [forallb] in Hz. apply andb_true_iff in Hz as [Hp Hrest].
  destruct (zero_pair_magnitudes p Hp) as [Ha Hb].
  rewrite cn0_run_cons. cbn [snd]. f_equal.
  apply zero_run_from_zero_pair; [exact Hlog | | | exact Hrest].
  - rewrite (proj1 (update_prev_fields log10f s (fst p) (snd p))). exact Ha.
  - rewrite (proj2 (update_prev_fields log10f s (fst p) (snd p))). exact Hb.
Qed.
End EstimatorEdges.

Lemma quadrature_only_floor_witness :
  let s := cn0_est_snv_init log10f_table Lit.f1 Val.f60 Val.f1000 Lit.f1 in
  cn0_run log10f_table s (repeat (Lit.f0, Lit.f3) 4) =
    ({| log_bw := log_bw s; I_prev_abs := Lit.f0;
        Q_prev_abs := F32.fabsf Lit.f3; cn0 := (log_bw s - Val.f60)%f32 |},
     snd (cn0_est_snv_update log10f_table s Lit.f0 Lit.f3)
       :: repeat (log_bw s - Val.f60)%f32 3).
Proof.
  exact (quadrature_only_floor log10f_table
           (cn0_est_snv_init log10f_table Lit.f1 Val.f60 Val.f1000 Lit.f1)
           Lit.f3 2 eq_refl eq_refl).
Defined.

Lemma nan_input_gives_nan_witness :
  let s := {| log_bw := Val.fm30; I_prev_abs := Lit.f1;
              Q_prev_abs := Lit.f0; cn0 := Val.f60 |} in
  nsr (F32.fabsf F32.nan) (F32.fabsf Lit.f1) (I_prev_abs s) (Q_prev_abs s)
  = F32.nan
  /\ snd (cn0_est_snv_update log10f_table s F32.nan Lit.f1) = F32.nan
  /\ cn0 (fst (cn0_est_snv_update log10f_table s F32.nan Lit.f1)) = F32.nan.
Proof.
  exact (nan_input_gives_nan log10f_table
           {| log_bw := Val.fm30; I_prev_abs := Lit.f1;
              Q_prev_abs := Lit.f0; cn0 := Val.f60 |}
           F32.nan Lit.f1 eq_refl eq_refl eq_refl).
Defined.

Lemma zero_signal_gives_nan_witness :
  let s := cn0_est_snv_init log10f_table Lit.f1 Val.f60 Val.f1000 Lit.f1 in
  snd (cn0_run log10f_table s
         [(Lit.f0, Lit.f0); ((- Lit.f0)%f32, Lit.f0); (Lit.f0, (- Lit.f0)%f32)])
  = snd (cn0_est_snv_update log10f_table s Lit.f0 Lit.f0)
      :: repeat F32.nan 2.
Proof.
  exact (zero_signal_gives_nan log10f_table
           (cn0_est_snv_init log10f_table Lit.f1 Val.f60 Val.f1000 Lit.f1)
           (Lit.f0, Lit.f0)
           [((- Lit.f0)%f32, Lit.f0); (Lit.f0, (- Lit.f0)%f32)]
           eq_refl eq_refl).
Defined.

(** * Further properties of the filter *)

Lemma is_nan_eq (x : F32.t) : x = F32.nan -> F32.is_nan x = true.
Proof. intros ->. reflexivity. Qed.

(** A NaN anywhere in the filter or in the input comes out of the update
    and is stored in [yn]. *)
Lemma update_with_nan (f : lp1_filter_t) (value : F32.t) :
  has_nan f value = true ->
  snd (lp1_filter_update f value) = F32.nan
  /\ yn (fst (lp1_filter_update f value)) = F32.nan.
Proof.
  unfold has_nan, lp1_filter_update. cbn [fst snd yn]. intros H.
  assert (E : (b f * value + xn f - a f * yn f)%f32 = F32.nan).
  { repeat (apply orb_true_iff in H; destruct H as [H | H]);
      apply is_nan_true in H; rewrite H.
    - change (F32.nan * yn f)%f32 with F32.nan. apply sub_nan_r.
    - reflexivity.
    - rewrite add_nan_r. reflexivity.
    - rewrite mul_nan_r. apply sub_nan_r.
    - rewrite mul_nan_r. reflexivity. }
  rewrite E. split; reflexivity.
Qed.

Lemma run_from_nan_output (values : list F32.t) (f : lp1_filter_t) :
  yn f = F32.nan ->
  snd (lp1_run f values) = repeat F32.nan (length values).
Proof.
  revert f. induction values as [| v rest IH]; intros f Hy; [reflexivity |].
  assert (Hn : has_nan f v = true).
  { unfold has_nan. rewrite (is_nan_eq _ Hy).
    rewrite !orb_true_r. reflexivity. }
  destruct (update_with_nan f v Hn) as [Ho Hs].
  rewrite lp1_run_cons. cbn [snd length repeat].
  rewrite Ho, (IH _ Hs). reflexivity.
Qed.

(** X7: a NaN is absorbing for the filter: once a coefficient, a
    delay-line field or an input is a NaN, that update and every later
    update returns a NaN, whatever the later inputs are. *)
Theorem nan_poisons_filter (f : lp1_filter_t) (value : F32.t)
  (values : list F32.t) :
  has_nan f value = true ->
  snd (lp1_run f (value :: values)) = repeat F32.nan (S (length values))
  /\ yn (fst (lp1_run f (value :: values))) = F32.nan.
Proof.
  intros H. destruct (update_with_nan f value H) as [Ho Hs].
  rewrite lp1_run_cons. cbn [fst snd repeat].
  rewrite Ho, (run_from_nan_output values _ Hs).
  split; [reflexivity |].
  clear Ho H. revert Hs. generalize (fst (lp1_filter_update f value)).
  induction values as [| v rest IH]; intros g Hg; [exact Hg |].
  rewrite lp1_run_cons. cbn [fst]. apply IH.
  apply update_with_nan. unfold has_nan. rewrite (is_nan_eq _ Hg).
  rewrite !orb_true_r. reflexivity.
Qed.

Lemma nan_poisons_filter_witness :
  let f := {| a := Lit.f0_5; b := Lit.f0_5; xn := Lit.f1; yn := Lit.f1 |} in
  snd (lp1_run f [F32.nan; Lit.f1; Lit.f2]) = repeat F32.nan 3
  /\ yn (fst (lp1_run f [F32.nan; Lit.f1; Lit.f2])) = F32.nan.
Proof.
  exact (nan_poisons_filter
           {| a := Lit.f0_5; b := Lit.f0_5; xn := Lit.f1; yn := Lit.f1 |}
           F32.nan [Lit.f1; Lit.f2] eq_refl).
Defined.

Section FilterRuns.
Variables (tanf : F32.t -> F32.t) (powf : F32.t -> F32.t -> F32.t).

(** X8: a filter set up by [lp1_filter_init] returns a NaN on every
    update of every run, for all [initial], [cutoff_freq], [loop_freq] and
    all inputs: both coefficients are NaN from the square root of a
    negative number, and the NaN stays in [yn]. *)
Theorem init_then_run_is_nan (initial cutoff_freq loop_freq : F32.t)
  (values : list F32.t) :
  powf_near powf ->
  let f := lp1_filter_init tanf powf initial cutoff_freq loop_freq in
  snd (lp1_run f values) = repeat F32.nan (length values).
Proof.
  intros Hp f. destruct values as [| v rest]; [reflexivity |].
  destruct (sqrtf_of_negative powf Hp) as [_ Hnan].
  destruct (coefficients_nan (lp1_Op tanf cutoff_freq loop_freq) (lp1_Ap powf)
              (lp1_Ts loop_freq) Hnan) as [_ [Ha _]].
  assert (Hn : has_nan f v = true).
  { unfold has_nan, f, lp1_filter_init. cbn [a]. rewrite Ha. reflexivity. }
  destruct (update_with_nan f v Hn) as [Ho Hs].
  rewrite lp1_run_cons. cbn [snd length repeat].
  rewrite Ho, (run_from_nan_output rest _ Hs). reflexivity.
Qed.
End FilterRuns.

Lemma init_then_run_is_nan_witness :
  let f := lp1_filter_init tanf_table powf_table Val.f60 Lit.f1 Val.f1000 in
  snd (lp1_run f [Val.f60; Val.f60; Lit.f0]) = repeat F32.nan 3.
Proof.
  exact (init_then_run_is_nan tanf_table powf_table Val.f60 Lit.f1 Val.f1000
           [Val.f60; Val.f60; Lit.f0] powf_table_near).
Defined.

(** A zero input to a filter at rest with finite coefficients leaves it at
    rest and returns a zero. *)
Lemma rest_step (f : lp1_filter_t) (value : F32.t) :
  is_finite (a f) = true -> is_finite (b f) = true ->
  at_rest f = true -> F32.is_zero value = true ->
  F32.is_zero (snd (lp1_filter_update f value)) = true
  /\ at_rest (fst (lp1_filter_update f value)) = true.
Proof.
  unfold at_rest, lp1_filter_update. cbn [fst snd xn yn].
  intros Ha Hb Hr Hv. apply andb_true_iff in Hr as [Hx Hy].
  destruct (a f) as [sa | sa | | sa ma ea]; try discriminate;
    destruct (b f) as [sb | sb | | sb mb eb]; try discriminate;
    destruct (xn f) as [sx | sx | | sx mx ex]; try discriminate;
    destruct (yn f) as [sy | sy | | sy my ey]; try discriminate;
    destruct value as [sv | sv | | sv mv ev]; try discriminate;
    destruct sa, sb, sx, sy, sv; split; reflexivity.
Qed.

(** X9: rest is a fixed point: a filter with finite coefficients whose
    delay line holds zeros returns a zero on every update of a run of zero
    inputs (zeros of either sign) and ends with zeros in its delay
    line. *)
Theorem rest_stays_at_rest (f : lp1_filter_t) (values : list F32.t) :
  is_finite (a f) = true -> is_finite (b f) = true ->
  at_rest f = true -> forallb F32.is_zero values = true ->
  forallb F32.is_zero (snd (lp1_run f values)) = true
  /\ at_rest (fst (lp1_run f values)) = true.
Proof.
  revert f. induction values as [| v rest IH]; intros f Ha Hb Hr Hz.
  - split; [reflexivity | exact Hr].
  - cbn [forallb] in Hz. apply andb_true_iff in Hz as [Hv Hrest].
    destruct (rest_step f v Ha Hb Hr Hv) as [Ho Hs].
    rewrite lp1_run_cons. cbn [fst snd forallb]. rewrite Ho.
    apply IH; [exact Ha | exact Hb | exact Hs | exact Hrest].
Qed.

Lemma rest_stays_at_rest_witness :
  let f := {| a := (- Lit.f0_5)%f32; b := Lit.f0_5; xn := Lit.f0;
              yn := (- Lit.f0)%f32 |} in
  forallb F32.is_zero (snd (lp1_run f [Lit.f0; (- Lit.f0)%f32; Lit.f0])) = true
  /\ at_rest (fst (lp1_run f [Lit.f0; (- Lit.f0)%f32; Lit.f0])) = true.
Proof.
  exact (rest_stays_at_rest
           {| a := (- Lit.f0_5)%f32; b := Lit.f0_5; xn := Lit.f0;
              yn := (- Lit.f0)%f32 |}
           [Lit.f0; (- Lit.f0)%f32; Lit.f0] eq_refl eq_refl eq_refl eq_refl).
Defined.

(** X10: the response to one input from rest: for a filter with finite
    coefficients and zeros in its delay line, an update with a value whose
    product [b * value] is finite and not zero returns exactly that
    product, and a following update with value 0 returns
    [b * value - a * (b * value)]: the delayed feed-forward term less the
    feedback of the first output. *)
Theorem response_from_rest (f : lp1_filter_t) (value : F32.t)
  (s : bool) (m : positive) (e : Z) :
  is_finite (a f) = true -> at_rest f = true ->
  (b f * value)%f32 = S754_finite s m e ->
  snd (lp1_run f [value; Lit.f0])
  = [ (b f * value)%f32; (b f * value - a f * (b f * value))%f32 ].
Proof.
  intros Ha Hr Hbv. apply andb_true_iff in Hr as [Hx Hy].
  cbn [lp1_run]. unfold lp1_filter_update. cbn [a b xn yn]. rewrite Hbv.
  assert (Hb0 : exists z, (b f * Lit.f0)%f32 = S754_zero z).
  { destruct (b f) as [sb | sb | | sb mb eb];
      destruct value as [sv | sv | | sv mv ev]; try discriminate;
      cbn; eauto. }
  destruct Hb0 as [z Hb0]. rewrite Hb0.
  destruct (xn f) as [sx | sx | | sx mx ex]; try discriminate.
  destruct (yn f) as [sy | sy | | sy my ey]; try discriminate.
  destruct (a f) as [sa | sa | | sa ma ea]; try discriminate; reflexivity.
Qed.

Lemma response_from_rest_witness :
  let f := {| a := (- Lit.f0_5)%f32; b := Lit.f0_5; xn := Lit.f0;
              yn := Lit.f0 |} in
  snd (lp1_run f [Lit.f2; Lit.f0])
  = [ (Lit.f0_5 * Lit.f2)%f32;
      (Lit.f0_5 * Lit.f2 - (- Lit.f0_5) * (Lit.f0_5 * Lit.f2))%f32 ].
Proof.
  exact (response_from_rest
           {| a := (- Lit.f0_5)%f32; b := Lit.f0_5; xn := Lit.f0; yn := Lit.f0 |}
           Lit.f2 false 8388608 (-23) eq_refl eq_refl eq_refl).
Defined.

(** * Repeated zero input to the estimator *)

(** C3 at the code: feeding I = 0 and Q = 0 repeatedly does not make the
    clamp fire.  After any update with I = 0 and Q = 0 (zeros of either
    sign), from any state, the stored pair is (0, 0); on the next such
    update P_s = P_n = 0, the guard [0 < 0] is false, the division branch
    computes nsr = 0/0, a NaN and not 1e6, and the update returns and stores
    a NaN, for a [log10f] that maps NaN to NaN. *)
Theorem zero_after_zero_is_nan (log10f : F32.t -> F32.t)
  (s : cn0_est_state_t) (I1 Q1 I2 Q2 : F32.t) :
  log10f F32.nan = F32.nan ->
  zero_pair (I1, Q1) = true -> zero_pair (I2, Q2) = true ->
  let s1 := fst (cn0_est_snv_update log10f s I1 Q1) in
  first_iteration s1 = false
  /\ (I_prev_abs s1 = Lit.f0 /\ Q_prev_abs s1 = Lit.f0)
  /\ (P_s (F32.fabsf I2) (I_prev_abs s1)
        <? P_n (F32.fabsf I2) (F32.fabsf Q2) (I_prev_abs s1) (Q_prev_abs s1)
           * CN0_SNV_NSR_MIN_MULTIPLIER)%f32 = false
  /\ nsr (F32.fabsf I2) (F32.fabsf Q2) (I_prev_abs s1) (Q_prev_abs s1) = F32.nan
  /\ nsr (F32.fabsf I2) (F32.fabsf Q2) (I_prev_abs s1) (Q_prev_abs s1)
     <> CN0_SNV_NSR_MIN
  /\ snd (cn0_est_snv_update log10f s1 I2 Q2) = F32.nan
  /\ cn0 (fst (cn0_est_snv_update log10f s1 I2 Q2)) = F32.nan.
Proof.
  intros Hlog H1 H2 s1.
  destruct (zero_pair_magnitudes (I1, Q1) H1) as [Ha1 Hb1].
  destruct (zero_pair_magnitudes (I2, Q2) H2) as [Ha2 Hb2].
  cbn [fst snd] in Ha1, Hb1, Ha2, Hb2.
  destruct (update_prev_fields log10f s I1 Q1) as [HI HQ].
  fold s1 in HI, HQ. rewrite Ha1 in HI. rewrite Hb1 in HQ.
  assert (Hs1 : first_iteration s1 = false)
    by (unfold first_iteration; rewrite HI; reflexivity).
  split; [exact Hs1 |]. split; [split; assumption |].
  rewrite Ha2, Hb2, HI, HQ.
  split; [reflexivity |]. split; [reflexivity |].
  split; [discriminate |].
  rewrite (update_later log10f s1 I2 Q2 Hs1). cbv zeta. cbn [fst snd cn0].
  rewrite Ha2, Hb2, HI, HQ.
  change (nsr Lit.f0 Lit.f0 Lit.f0 Lit.f0) with F32.nan.
  rewrite Hlog. change (Lit.f10 * F32.nan)%f32 with F32.nan.
  rewrite sub_nan_r. split; reflexivity.
Qed.

Lemma zero_after_zero_is_nan_witness :
  let s1 := fst (cn0_est_snv_update log10f_table
                   (cn0_est_snv_init log10f_table Lit.f1 Val.f60 Val.f1000 Lit.f1)
                   Lit.f0 Lit.f0) in
  first_iteration s1 = false
  /\ (I_prev_abs s1 = Lit.f0 /\ Q_prev_abs s1 = Lit.f0)
  /\ (P_s (F32.fabsf Lit.f0) (I_prev_abs s1)
        <? P_n (F32.fabsf Lit.f0) (F32.fabsf Lit.f0) (I_prev_abs s1)
             (Q_prev_abs s1)
           * CN0_SNV_NSR_MIN_MULTIPLIER)%f32 = false
  /\ nsr (F32.fabsf Lit.f0) (F32.fabsf Lit.f0) (I_prev_abs s1) (Q_prev_abs s1)
     = F32.nan
  /\ nsr (F32.fabsf Lit.f0) (F32.fabsf Lit.f0) (I_prev_abs s1) (Q_prev_abs s1)
     <> CN0_SNV_NSR_MIN
  /\ snd (cn0_est_snv_update log10f_table s1 Lit.f0 Lit.f0) = F32.nan
  /\ cn0 (fst (cn0_est_snv_update log10f_table s1 Lit.f0 Lit.f0)) = F32.nan.
Proof.
  exact (zero_after_zero_is_nan log10f_table
           (cn0_est_snv_init log10f_table Lit.f1 Val.f60 Val.f1000 Lit.f1)
           Lit.f0 Lit.f0 Lit.f0 Lit.f0 eq_refl eq_refl eq_refl).
Defined.
